(** * Tone synthesis of [healthvis-mobile/generate_tones.py]

    A shallow embedding of [generate_tone] and of the NumPy operations it
    calls, followed by the properties of the sample buffer it returns.

    Numbers.  A [float64] is a real number of [format]: one with 53
    significant bits.  Every float operation of the source ([*], [/], [-],
    [+], the conversion of an [int], [np.sin]) is the exact operation on
    reals followed by [rnd64], rounding to the nearest number of [format]
    with ties to the even mantissa, as IEEE 754 prescribes.  [np.pi] is the
    double [pi64].  Two idealisations remain and are the model's
    assumptions: the exponent range is not bounded (no overflow to
    infinity, no subnormal numbers, no NaN), and [np.sin] is taken as the
    correctly rounded sine.  The theorems use of [np.sin] only that its
    values are doubles in [-1, 1], that it maps 0 to 0 and is odd, and, in
    two examples, that one of its values lies between two doubles far
    apart.  Python integers are [Z].  The [int16] buffer the function
    returns is a [list Z] whose entries are produced by the cast
    [astype_int16], with its 16-bit wrap-around written out.

    The arguments [duration], [fade_duration] and [frequency] range over
    all reals; a Python caller passes doubles (an [int] frequency such as
    300 is converted to the double of the same value).  The examples use
    doubles only.

    Arrays.  Every NumPy array lives in a store (an allocation log); a
    Python variable holds a reference into it.  A basic slice such as
    [audio[:fade_samples]] is a view, an alias for a segment of its base
    array, and [view *= rhs] writes through the view into the base array.
    Failures of NumPy surface as the Python exception [ValueError].
    Memory limits are not modelled: an array of any length can be
    allocated. *)

From Stdlib Require Import Reals Lra Lia ZArith.
From stdpp Require Import base option list.

(** ** Scalars *)

(** Python's [int(x)] on a float: truncation toward zero. *)
Definition py_int (x : R) : Z :=
  if Rle_dec 0 x then Zfloor x else Zceil x.

(** Two's complement reading of the low 16 bits of an integer. *)
Definition wrap16 (z : Z) : Z :=
  ((z + 32768) mod 65536 - 32768)%Z.

(** The element-wise cast of [ndarray.astype(np.int16)] on a [float64]:
    the fractional part is dropped (C conversion, toward zero) and the
    integer is stored in 16 bits. *)
Definition astype_int16 (x : R) : Z := wrap16 (py_int x).

(** ** Binary64 arithmetic *)

(** Powers of two. *)
Definition bpow (e : Z) : R := powerRZ 2 e.

(** The binary floating-point numbers with 53 significant bits. *)
Definition format (x : R) : Prop :=
  ∃ m e : Z, x = (IZR m * bpow e)%R ∧ (Z.abs m < 2 ^ 53)%Z.

(** The exponent [e] with [2^(e-1) <= |x| < 2^e], for [x] other than 0. *)
Definition mag (x : R) : Z := (Zfloor (ln (Rabs x) / ln 2) + 1)%Z.

(** The integer nearest to [t], the even one at a tie. *)
Definition rne (t : R) : Z :=
  let f := Zfloor t in
  if Rlt_dec (t - IZR f) (1 / 2) then f
  else if Rlt_dec (1 / 2) (t - IZR f) then (f + 1)%Z
  else if Z.even f then f else (f + 1)%Z.

(** Rounding to the nearest number of [format], ties to even: the
    mantissa of [x] scaled to 53 bits is rounded to an integer. *)
Definition rnd64 (x : R) : R :=
  if Req_dec_T x 0 then 0%R
  else (IZR (rne (x * bpow (53 - mag x))) * bpow (mag x - 53))%R.

(** The arithmetic of [float64]: the exact result, rounded. *)
Definition fadd (x y : R) : R := rnd64 (x + y).
Definition fsub (x y : R) : R := rnd64 (x - y).
Definition fmul (x y : R) : R := rnd64 (x * y).
Definition fdiv (x y : R) : R := rnd64 (x / y).

(** A Python [int] used in float arithmetic. *)
Definition of_int (z : Z) : R := rnd64 (IZR z).

(** [np.pi], the double 0x400921FB54442D18. *)
Definition pi64 : R := (884279719003555 / 281474976710656)%R.

(** [np.sin] on a double: the sine, rounded. *)
Definition fsin (x : R) : R := rnd64 (sin x).

(** ** The store of arrays and the monad of NumPy operations *)

Abbreviation ndarray := (list R).
Abbreviation store := (list (list R)).
Abbreviation ref := nat.

Inductive exn : Set :=
| ValueError.

(** [Stuck] is the model's own fault state (reading a reference that was
    never allocated); no Python run reaches it. *)
Inductive outcome (A : Type) : Type :=
| Ok (a : A) (s : store)
| Raise (e : exn)
| Stuck.
Arguments Ok {A} a s.
Arguments Raise {A} e.
Arguments Stuck {A}.

Definition M (A : Type) : Type := store → outcome A.

#[global] Instance M_ret : MRet M := λ A a s, Ok a s.

#[global] Instance M_bind : MBind M := λ A B k m s,
  match m s with
  | Ok a s' => k a s'
  | Raise e => Raise e
  | Stuck => Stuck
  end.

Definition raise {A : Type} (e : exn) : M A := λ _, Raise e.

(** A new array object: appended to the store, its index is the reference. *)
Definition alloc (a : ndarray) : M ref := λ s, Ok (length s) (s ++ [a]).

Definition load (r : ref) : M ndarray := λ s,
  match s !! r with
  | Some a => Ok a s
  | None => Stuck
  end.

(** Overwrite the contents of an existing array object in place. *)
Definition store_at (r : ref) (a : ndarray) : M unit := λ s,
  match s !! r with
  | Some _ => Ok tt (<[r := a]> s)
  | None => Stuck
  end.

(** What a caller observes of a run: the value or the exception. *)
Definition result {A : Type} (o : outcome A) : option (exn + A) :=
  match o with
  | Ok a _ => Some (inr a)
  | Raise e => Some (inl e)
  | Stuck => None
  end.

(** ** NumPy *)

(** [np.arange(0, num)] as floats: 0.0, 1.0, ... *)
Definition arange (num : Z) : ndarray := of_int <$> seqZ 0 num.

(** The values of [np.linspace(start, stop, num, endpoint)], following
    NumPy's implementation: [div] intervals of width [step]; when the step
    is zero the division is done before the multiplication; with no
    interval ([div <= 0]) the samples are only shifted by [start]; with
    [endpoint] and more than one sample the last one is overwritten by
    [stop].  Each operation rounds. *)
Definition linspace_values (start stop : R) (num : Z) (endpoint : bool) : ndarray :=
  let div := if endpoint then (num - 1)%Z else num in
  let delta := fsub stop start in
  let y := arange num in
  let y :=
    if (0 <? div)%Z then
      let step := fdiv delta (of_int div) in
      if Req_dec_T step 0
      then (λ v, fmul (fdiv v (of_int div)) delta) <$> y
      else (λ v, fmul v step) <$> y
    else (λ v, fmul v delta) <$> y in
  let y := (λ v, fadd v start) <$> y in
  if endpoint && (1 <? num)%Z then <[pred (length y) := stop]> y else y.

Definition np_linspace (start stop : R) (num : Z) (endpoint : bool) : M ref :=
  if (num <? 0)%Z then raise ValueError
  else alloc (linspace_values start stop num endpoint).

(** [c * a] for a Python scalar [c] and an array [a]: a new array. *)
Definition scalar_mul (c : R) (a : ref) : M ref :=
  x ← load a; alloc (fmul c <$> x).

(** [a * c] for an array [a] and a Python scalar [c]: a new array. *)
Definition mul_scalar (a : ref) (c : R) : M ref :=
  x ← load a; alloc ((λ v, fmul v c) <$> x).

Definition np_sin (a : ref) : M ref :=
  x ← load a; alloc (fsin <$> x).

(** A view [base[offset : offset + extent]]. *)
Record view : Set := View { base : ref; offset : nat; extent : nat }.

(** Python's adjustment of one slice bound against the array length:
    negative bounds count from the end, and both are clipped. *)
Definition adjust_index (i len : Z) : Z :=
  if (i <? 0)%Z then Z.max (i + len) 0 else Z.min i len.

(** Offset and extent of [a[start:stop]] (unit step) in an array of
    [len] elements; [None] is an omitted bound. *)
Definition slice_bounds (start stop : option Z) (len : nat) : nat * nat :=
  let n := Z.of_nat len in
  let lo := adjust_index (default 0%Z start) n in
  let hi := adjust_index (default n stop) n in
  (Z.to_nat lo, Z.to_nat (hi - lo)).

(** [a[start:stop]]: a view, nothing is copied. *)
Definition slice (a : ref) (start stop : option Z) : M view :=
  x ← load a;
  let '(off, ext) := slice_bounds start stop (length x) in
  mret (View a off ext).

(** The new contents of the base array after [view *= rhs]; [None] when
    the shapes cannot be broadcast into the view: [rhs] must have the
    view's length or length one. *)
Definition imul_values (x : ndarray) (off ext : nat) (b : ndarray) : option ndarray :=
  let seg := take ext (drop off x) in
  if decide (length b = ext) then
    Some (take off x ++ zip_with fmul seg b ++ drop (off + ext) x)
  else
    match b with
    | [c] => Some (take off x ++ ((λ v, fmul v c) <$> seg) ++ drop (off + ext) x)
    | _ => None
    end.

(** [v *= rhs]: element-wise product written back through the view. *)
Definition imul (v : view) (rhs : ref) : M unit :=
  x ← load (base v);
  b ← load rhs;
  match imul_values x (offset v) (extent v) b with
  | Some x' => store_at (base v) x'
  | None => raise ValueError
  end.

(** [a.astype(np.int16)]: the buffer handed back to the caller. *)
Definition astype (a : ref) : M (list Z) :=
  x ← load a; mret (astype_int16 <$> x).

(** ** generate_tone *)

(** The module constants [main] passes; a float literal denotes the
    double nearest to its decimal value. *)
Definition SAMPLE_RATE : Z := 44100.
Definition DURATION : R := rnd64 (2 / 10).
Definition FADE_DURATION : R := rnd64 (1 / 100).

Definition generate_tone (frequency duration : R) (sample_rate : Z)
    (fade_duration : R) : M (list Z) :=
  let num_samples := py_int (fmul (of_int sample_rate) duration) in
  t ← np_linspace 0 duration num_samples false;
  phase ← scalar_mul (fmul (fmul 2 pi64) frequency) t;
  audio ← np_sin phase;
  let fade_samples := py_int (fmul (of_int sample_rate) fade_duration) in
  _ ← (if (0 <? fade_samples)%Z then
         fade_in ← np_linspace 0 1 fade_samples true;
         head ← slice audio None (Some fade_samples);
         _ ← imul head fade_in;
         fade_out ← np_linspace 1 0 fade_samples true;
         tail ← slice audio (Some (- fade_samples)%Z) None;
         imul tail fade_out
       else mret tt);
  scaled ← mul_scalar audio 32767;
  astype scaled.

(** ** The arrays of a run as functions of the arguments

    [generate_tone] is a straight line of array operations; the contents of
    every array it allocates are determined by the arguments.  The
    definitions below name those contents by composing the same NumPy value
    functions in the same order; [generate_tone_run] proves that a run from
    any store produces exactly them. *)

(** [num_samples] and [fade_samples] of the source (N and F): the
    truncated double products. *)
Definition sample_count (duration : R) (sample_rate : Z) : Z :=
  py_int (fmul (of_int sample_rate) duration).

Definition fade_count (sample_rate : Z) (fade_duration : R) : Z :=
  py_int (fmul (of_int sample_rate) fade_duration).

(** The array [t]. *)
Definition time_points (duration : R) (N : Z) : ndarray :=
  linspace_values 0 duration N false.

(** The temporary [2 * np.pi * frequency * t]. *)
Definition phase_values (frequency duration : R) (N : Z) : ndarray :=
  fmul (fmul (fmul 2 pi64) frequency) <$> time_points duration N.

(** [audio] right after [np.sin]. *)
Definition raw_audio (frequency duration : R) (N : Z) : ndarray :=
  fsin <$> phase_values frequency duration N.

Definition fade_in_values (F : Z) : ndarray := linspace_values 0 1 F true.
Definition fade_out_values (F : Z) : ndarray := linspace_values 1 0 F true.

(** [audio] after the two in-place multiplications of the fade branch;
    [None] when one of them cannot broadcast. *)
Definition faded_audio (raw : ndarray) (F : Z) : option ndarray :=
  let '(o1, e1) := slice_bounds None (Some F) (length raw) in
  x1 ← imul_values raw o1 e1 (fade_in_values F);
  let '(o2, e2) := slice_bounds (Some (- F)%Z) None (length x1) in
  imul_values x1 o2 e2 (fade_out_values F).

(** [audio] when the function reaches its last statement; [None] when an
    operation before it raises. *)
Definition final_audio (frequency duration : R) (sample_rate : Z)
    (fade_duration : R) : option ndarray :=
  let N := sample_count duration sample_rate in
  let F := fade_count sample_rate fade_duration in
  if (N <? 0)%Z then None
  else if (0 <? F)%Z then faded_audio (raw_audio frequency duration N) F
  else Some (raw_audio frequency duration N).

(** The temporary [audio * 32767] and the returned buffer. *)
Definition scaled_values (audio : ndarray) : ndarray := (λ v, fmul v 32767) <$> audio.
Definition quantize (audio : ndarray) : list Z := astype_int16 <$> scaled_values audio.

(** The arrays a successful run appends to the store, in allocation order:
    [t], the phase temporary, [audio], the two ramps when the fade branch is
    taken, and the scaled temporary. *)
Definition allocated (frequency duration : R) (sample_rate : Z)
    (fade_duration : R) (audio : ndarray) : store :=
  let N := sample_count duration sample_rate in
  let F := fade_count sample_rate fade_duration in
  [time_points duration N; phase_values frequency duration N; audio]
  ++ (if (0 <? F)%Z then [fade_in_values F; fade_out_values F] else [])
  ++ [scaled_values audio].

(** ** Closed forms

    The formulas against which the arrays of a run are compared. *)

(** Time of sample [i] when [N] samples span [duration]: the index times
    the rounded step [duration / N]. *)
Definition time_point (duration : R) (N : Z) (i : nat) : R :=
  fmul (of_int (Z.of_nat i)) (fdiv (fsub duration 0) (of_int N)).

(** The sine at sample [i], before any fade. *)
Definition raw_sample (frequency duration : R) (N : Z) (i : nat) : R :=
  fsin (fmul (fmul (fmul 2 pi64) frequency) (time_point duration N i)).

(** Linear ramps over [F] points: rising from 0 and falling from 1.  With a
    single point each ramp consists of its starting value; otherwise the
    last point is the end value itself and the others are multiples of the
    rounded step [1 / (F - 1)]. *)
Definition ramp_up (F : Z) (j : nat) : R :=
  if (F =? 1)%Z then 0%R
  else if (Z.of_nat j =? F - 1)%Z then 1%R
  else fmul (of_int (Z.of_nat j)) (fdiv 1 (of_int (F - 1))).

Definition ramp_down (F : Z) (j : nat) : R :=
  if (F =? 1)%Z then 1%R
  else if (Z.of_nat j =? F - 1)%Z then 0%R
  else fadd (fmul (of_int (Z.of_nat j)) (fdiv (-1) (of_int (F - 1)))) 1.

(** What the fade-in (the first [F] samples) and the fade-out (the last
    [F] of [N] samples) make of the value [v] at index [i]. *)
Definition fade_in_applied (F : Z) (i : nat) (v : R) : R :=
  if (Z.of_nat i <? F)%Z then fmul v (ramp_up F i) else v.

Definition fade_out_applied (N F : Z) (i : nat) (v : R) : R :=
  if (N - F <=? Z.of_nat i)%Z then fmul v (ramp_down F (i - Z.to_nat (N - F))) else v.

(** The amplitude of sample [i] after both fades. *)
Definition faded_sample (frequency duration : R) (N F : Z) (i : nat) : R :=
  fade_out_applied N F i (fade_in_applied F i (raw_sample frequency duration N i)).

(** A tone specification as the interface documents it: positive
    frequency, duration and sample rate, and a fade of at most half the
    duration. *)
Definition valid_ToneSpec (frequency duration : R) (sample_rate : Z)
    (fade_duration : R) : Prop :=
  (0 < frequency)%R ∧ (0 < duration)%R ∧ (0 < sample_rate)%Z ∧
  (0 <= fade_duration <= duration / 2)%R.



(** ** [np.linspace] without rounding

    The algorithm of [linspace_values] over the real numbers: what
    [np.linspace] computes when none of its operations rounds. *)

Module Exact.

Definition arange (num : Z) : ndarray := IZR <$> seqZ 0 num.

Definition linspace_values (start stop : R) (num : Z) (endpoint : bool) : ndarray :=
  let div := if endpoint then (num - 1)%Z else num in
  let delta := (stop - start)%R in
  let y := arange num in
  let y :=
    if (0 <? div)%Z then
      let step := (delta / IZR div)%R in
      if Req_dec_T step 0
      then (λ v, v / IZR div * delta)%R <$> y
      else (λ v, v * step)%R <$> y
    else (λ v, v * delta)%R <$> y in
  let y := (λ v, v + start)%R <$> y in
  if endpoint && (1 <? num)%Z then <[pred (length y) := stop]> y else y.

End Exact.

(** * Arithmetic *)

(** ** Facts about the scalar conversions *)

Section Scalars.
Local Open Scope R_scope.

Lemma Zceil_as_floor (x : R) : Zceil x = (- Zfloor (- x))%Z.
Proof. rewrite <- (Ropp_involutive x) at 1. rewrite ZceilN. reflexivity. Qed.

Lemma py_int_nonneg (x : R) : 0 <= x → py_int x = Zfloor x.
Proof. intros Hx. unfold py_int. destruct (Rle_dec 0 x); [reflexivity | contradiction]. Qed.

Lemma py_int_neg (x : R) : x < 0 → py_int x = (- Zfloor (- x))%Z.
Proof.
  intros Hx. unfold py_int. destruct (Rle_dec 0 x); [lra |]. apply Zceil_as_floor.
Qed.

Lemma py_int_IZR (z : Z) : py_int (IZR z) = z.
Proof.
  unfold py_int. destruct (Rle_dec 0 (IZR z)).
  - apply ZfloorZ.
  - rewrite Zceil_as_floor, <- opp_IZR, ZfloorZ. lia.
Qed.

Lemma py_int_0 : py_int 0 = 0%Z.
Proof. apply (py_int_IZR 0). Qed.

(** Truncation keeps the sign and floors the magnitude. *)
Lemma py_int_abs (x : R) : Z.abs (py_int x) = Zfloor (Rabs x).
Proof.
  destruct (Rle_lt_dec 0 x) as [Hx | Hx].
  - rewrite py_int_nonneg, Rabs_pos_eq by assumption.
    apply Z.abs_eq. apply (Zfloor_lub 0). exact Hx.
  - rewrite py_int_neg, Rabs_left by assumption.
    rewrite Z.abs_opp. apply Z.abs_eq. apply (Zfloor_lub 0). lra.
Qed.

Lemma py_int_abs_le (x y : R) :
  Rabs x <= Rabs y → (Z.abs (py_int x) ≤ Z.abs (py_int y))%Z.
Proof. intros H. rewrite !py_int_abs. apply Zfloor_le, H. Qed.

Lemma py_int_bounded (x : R) (b : Z) :
  Rabs x <= IZR b → (- b ≤ py_int x ≤ b)%Z.
Proof.
  intros H. apply Z.abs_le. rewrite py_int_abs.
  rewrite <- (ZfloorZ b). apply Zfloor_le, H.
Qed.


Lemma wrap16_id (z : Z) : (-32768 ≤ z ≤ 32767)%Z → wrap16 z = z.
Proof. intros H. unfold wrap16. rewrite Z.mod_small by lia. lia. Qed.

Lemma astype_int16_bounded (x : R) :
  Rabs x <= 32767 → astype_int16 x = py_int x ∧ (-32767 ≤ astype_int16 x ≤ 32767)%Z.
Proof.
  intros H. pose proof (py_int_bounded x 32767 H) as Hb.
  unfold astype_int16. rewrite wrap16_id by lia. split; [reflexivity | lia].
Qed.


Lemma py_int_eq (x : R) (z : Z) : x = IZR z → py_int x = z.
Proof. intros ->. apply py_int_IZR. Qed.

Lemma py_int_between (x : R) (z : Z) :
  0 <= IZR z → IZR z <= x < IZR z + 1 → py_int x = z.
Proof.
  intros Hz Hx. rewrite py_int_nonneg by lra. apply Zfloor_eq, Hx.
Qed.


Lemma py_int_opp (x : R) : py_int (- x) = (- py_int x)%Z.
Proof.
  destruct (Rtotal_order x 0) as [Hx | [-> | Hx]].
  - rewrite (py_int_nonneg (- x)), (py_int_neg x) by lra. lia.
  - rewrite Ropp_0, py_int_0. reflexivity.
  - rewrite (py_int_neg (- x)), (py_int_nonneg x), Ropp_involutive by lra. reflexivity.
Qed.

Lemma py_int_sign (x : R) :
  (0 <= x → (0 ≤ py_int x)%Z) ∧ (x <= 0 → (py_int x ≤ 0)%Z).
Proof.
  split; intros Hx.
  - rewrite py_int_nonneg by exact Hx. apply (Zfloor_lub 0), Hx.
  - destruct (Req_dec_T x 0) as [-> | Hne]; [rewrite py_int_0; lia |].
    rewrite py_int_neg by lra.
    assert (0 ≤ Zfloor (- x))%Z by (apply (Zfloor_lub 0); lra). lia.
Qed.


End Scalars.

(** ** Binary64 rounding *)

Section Rounding.
Local Open Scope R_scope.

Lemma bpow_pos (e : Z) : 0 < bpow e.
Proof. apply powerRZ_lt. lra. Qed.

Lemma bpow_add (a b : Z) : bpow (a + b) = bpow a * bpow b.
Proof. apply powerRZ_add. lra. Qed.

Lemma bpow_0 : bpow 0 = 1.
Proof. reflexivity. Qed.

Lemma bpow_1 : bpow 1 = 2.
Proof. unfold bpow. simpl. lra. Qed.

Lemma bpow_opp (a : Z) : bpow (- a) = / bpow a.
Proof.
  pose proof (bpow_pos a) as Ha.
  assert (bpow a * bpow (- a) = 1) as H1.
  { rewrite <- bpow_add, Z.add_opp_diag_r. reflexivity. }
  apply (Rmult_eq_reg_l (bpow a)); [| lra].
  rewrite H1. field. lra.
Qed.

Lemma bpow_nat_ge_1 (n : nat) : 1 <= bpow (Z.of_nat n).
Proof.
  induction n as [| n IH]; [change (bpow (Z.of_nat 0)) with 1; lra |].
  rewrite Nat2Z.inj_succ, <- Z.add_1_r, bpow_add, bpow_1. lra.
Qed.

Lemma bpow_le (a b : Z) : (a ≤ b)%Z → bpow a <= bpow b.
Proof.
  intros Hab. replace b with (a + Z.of_nat (Z.to_nat (b - a)))%Z by lia.
  rewrite bpow_add. pose proof (bpow_pos a). pose proof (bpow_nat_ge_1 (Z.to_nat (b - a))).
  nra.
Qed.

Lemma bpow_lt (a b : Z) : (a < b)%Z → bpow a < bpow b.
Proof.
  intros Hab. apply Rlt_le_trans with (bpow (a + 1)).
  - rewrite bpow_add, bpow_1. pose proof (bpow_pos a). lra.
  - apply bpow_le. lia.
Qed.

Lemma bpow_lt_inv (a b : Z) : bpow a < bpow b → (a < b)%Z.
Proof.
  intros H. destruct (Z.lt_ge_cases a b) as [? | Hge]; [assumption |].
  pose proof (bpow_le b a ltac:(lia)). lra.
Qed.

Lemma bpow_IZR (n : nat) : bpow (Z.of_nat n) = IZR (2 ^ Z.of_nat n).
Proof.
  induction n as [| n IH]; [reflexivity |].
  rewrite Nat2Z.inj_succ, <- Z.add_1_r, bpow_add, bpow_1, IH.
  rewrite Z.pow_add_r, mult_IZR by lia. simpl. lra.
Qed.

Lemma ln_2_pos : 0 < ln 2.
Proof. rewrite <- ln_1. apply ln_increasing; lra. Qed.

Lemma bpow_exp (e : Z) : bpow e = exp (IZR e * ln 2).
Proof. unfold bpow. rewrite powerRZ_Rpower by lra. reflexivity. Qed.

Lemma mag_spec (x : R) : x <> 0 → bpow (mag x - 1) <= Rabs x < bpow (mag x).
Proof.
  intros Hx. unfold mag.
  assert (0 < Rabs x) as Hpos by (apply Rabs_pos_lt; exact Hx).
  pose proof ln_2_pos as H2.
  pose proof (Zfloor_bound (ln (Rabs x) / ln 2)) as [Hlo Hhi].
  set (f := Zfloor (ln (Rabs x) / ln 2)) in *.
  assert (ln (Rabs x) / ln 2 * ln 2 = ln (Rabs x)) as Hq by (field; lra).
  replace (f + 1 - 1)%Z with f by lia.
  rewrite !bpow_exp, plus_IZR. pose proof (exp_ln (Rabs x) Hpos) as Hexp.
  split.
  - rewrite <- Hexp.
    destruct (Req_dec_T (IZR f * ln 2) (ln (Rabs x))) as [-> | Hne]; [lra |].
    left. apply exp_increasing. nra.
  - rewrite <- Hexp at 1. apply exp_increasing. nra.
Qed.

Lemma mag_unique (x : R) (e : Z) : bpow (e - 1) <= Rabs x < bpow e → mag x = e.
Proof.
  intros [Hlo Hhi].
  assert (x <> 0) as Hx.
  { intros ->. rewrite Rabs_R0 in Hlo. pose proof (bpow_pos (e - 1)). lra. }
  destruct (mag_spec x Hx) as [Mlo Mhi].
  assert (mag x - 1 < e)%Z by (apply bpow_lt_inv; lra).
  assert (e - 1 < mag x)%Z by (apply bpow_lt_inv; lra).
  lia.
Qed.

Lemma mag_opp (x : R) : mag (- x) = mag x.
Proof. unfold mag. rewrite Rabs_Ropp. reflexivity. Qed.

Lemma mag_le (x y : R) : x <> 0 → Rabs x <= Rabs y → (mag x ≤ mag y)%Z.
Proof.
  intros Hx Hxy.
  assert (y <> 0) as Hy.
  { intros ->. rewrite Rabs_R0 in Hxy. pose proof (Rabs_pos_lt x Hx). lra. }
  destruct (mag_spec x Hx) as [Xlo Xhi]. destruct (mag_spec y Hy) as [Ylo Yhi].
  assert (mag x - 1 < mag y)%Z by (apply bpow_lt_inv; lra). lia.
Qed.

Lemma mag_scale (x : R) (k : Z) : x <> 0 → mag (x * bpow k) = (mag x + k)%Z.
Proof.
  intros Hx. destruct (mag_spec x Hx) as [Xlo Xhi]. pose proof (bpow_pos k) as Hk.
  apply mag_unique. rewrite Rabs_mult, (Rabs_pos_eq (bpow k)) by lra.
  replace (mag x + k - 1)%Z with ((mag x - 1) + k)%Z by lia.
  rewrite !bpow_add. split; nra.
Qed.

Lemma Rabs_le_bounds (a b : R) : Rabs a <= b → - b <= a <= b.
Proof. unfold Rabs. destruct (Rcase_abs a); lra. Qed.

(** *** Rounding to an integer *)

Lemma rne_char (t : R) (n : Z) :
  Rabs (IZR n - t) < 1 / 2 ∨ (Rabs (IZR n - t) = 1 / 2 ∧ Z.even n = true) →
  rne t = n.
Proof.
  intros H. unfold rne. pose proof (Zfloor_bound t) as [Hlo Hhi].
  set (f := Zfloor t) in *.
  assert (f = n ∨ f = (n - 1)%Z) as Hf.
  { assert (IZR n - 1 < t < IZR n + 1) as Hn.
    { destruct H as [H | [H _]]; apply Rabs_def2 in H || (assert (Rabs (IZR n - t) < 1) as H' by lra; apply Rabs_def2 in H'); lra. }
    assert (n - 1 < f + 1)%Z by (apply lt_IZR; rewrite plus_IZR, minus_IZR; lra).
    assert (f < n + 1)%Z by (apply lt_IZR; rewrite plus_IZR; lra). lia. }
  destruct Hf as [Hf | Hf]; rewrite Hf in *; clear Hf.
  - assert (Rabs (IZR n - t) = t - IZR n) as Ha.
    { rewrite Rabs_left1 by lra. lra. }
    rewrite Ha in H.
    destruct (Rlt_dec (t - IZR n) (1 / 2)); [reflexivity |].
    destruct (Rlt_dec (1 / 2) (t - IZR n)); [lra |].
    destruct H as [H | [_ He]]; [lra |]. rewrite He. reflexivity.
  - rewrite minus_IZR in *.
    destruct (Req_dec_T t (IZR n - 1)) as [Ht | Ht].
    + rewrite Ht in H. replace (IZR n - (IZR n - 1)) with 1 in H by lra.
      rewrite Rabs_R1 in H. lra.
    + assert (Rabs (IZR n - t) = IZR n - t) as Ha.
      { apply Rabs_pos_eq. lra. }
      rewrite Ha in H.
      destruct (Rlt_dec (t - (IZR n - 1)) (1 / 2)); [destruct H as [H | [H _]]; lra |].
      destruct (Rlt_dec (1 / 2) (t - (IZR n - 1))); [lia |].
      destruct H as [H | [_ He]]; [lra |].
      replace (Z.even (n - 1)) with false; [lia |].
      symmetry. rewrite Z.even_sub, He. reflexivity.
Qed.

Lemma rne_spec (t : R) :
  Rabs (IZR (rne t) - t) < 1 / 2 ∨
  (Rabs (IZR (rne t) - t) = 1 / 2 ∧ Z.even (rne t) = true).
Proof.
  unfold rne. pose proof (Zfloor_bound t) as [Hlo Hhi].
  set (f := Zfloor t) in *.
  destruct (Rlt_dec (t - IZR f) (1 / 2)).
  - left. rewrite Rabs_left1 by lra. lra.
  - destruct (Rlt_dec (1 / 2) (t - IZR f)).
    + left. rewrite plus_IZR, Rabs_pos_eq by lra. lra.
    + assert (t - IZR f = 1 / 2) as Heq by lra.
      right. destruct (Z.even f) eqn:He.
      * split; [| exact He]. rewrite Rabs_left1 by lra. lra.
      * split.
        -- rewrite plus_IZR, Rabs_pos_eq by lra. lra.
        -- rewrite Z.even_add, He. reflexivity.
Qed.

Lemma rne_err (t : R) : Rabs (IZR (rne t) - t) <= 1 / 2.
Proof. destruct (rne_spec t) as [H | [H _]]; lra. Qed.

Lemma rne_IZR (n : Z) : rne (IZR n) = n.
Proof.
  apply rne_char. left. replace (IZR n - IZR n) with 0 by lra. rewrite Rabs_R0. lra.
Qed.

Lemma rne_opp (t : R) : rne (- t) = (- rne t)%Z.
Proof.
  apply rne_char. rewrite opp_IZR.
  replace (- IZR (rne t) - - t) with (- (IZR (rne t) - t)) by lra.
  rewrite Rabs_Ropp, Z.even_opp. apply rne_spec.
Qed.

Lemma rne_mono (s t : R) : s <= t → (rne s ≤ rne t)%Z.
Proof.
  intros Hst.
  pose proof (rne_err s) as Hs. pose proof (rne_err t) as Ht.
  apply Rabs_le_bounds in Hs, Ht.
  destruct (Z.le_gt_cases (rne s) (rne t)) as [? | Hgt]; [assumption | exfalso].
  assert (IZR (rne t) + 1 <= IZR (rne s)) as Hz.
  { rewrite <- plus_IZR. apply IZR_le. lia. }
  assert (s = t) as Heq by lra.
  rewrite Heq in Hgt. lia.
Qed.

(** *** Rounding to [format] *)

Lemma rnd64_0 : rnd64 0 = 0.
Proof. unfold rnd64. destruct (Req_dec_T 0 0); [reflexivity | contradiction]. Qed.

Lemma rnd64_nonzero (x : R) :
  x <> 0 → rnd64 x = IZR (rne (x * bpow (53 - mag x))) * bpow (mag x - 53).
Proof. intros Hx. unfold rnd64. destruct (Req_dec_T x 0); [contradiction | reflexivity]. Qed.

Lemma rnd64_opp (x : R) : rnd64 (- x) = - rnd64 x.
Proof.
  destruct (Req_dec_T x 0) as [-> | Hx]; [rewrite Ropp_0, rnd64_0; lra |].
  rewrite !rnd64_nonzero by lra. rewrite mag_opp.
  replace (- x * bpow (53 - mag x)) with (- (x * bpow (53 - mag x))) by lra.
  rewrite rne_opp, opp_IZR. lra.
Qed.

Lemma scaled_mantissa_bounds (x : R) :
  x <> 0 → bpow 52 <= Rabs (x * bpow (53 - mag x)) < bpow 53.
Proof.
  intros Hx. destruct (mag_spec x Hx) as [Hlo Hhi].
  pose proof (bpow_pos (53 - mag x)) as Hp.
  rewrite Rabs_mult, (Rabs_pos_eq (bpow (53 - mag x))) by lra.
  assert (bpow 52 = bpow (mag x - 1) * bpow (53 - mag x)) as ->
    by (rewrite <- bpow_add; f_equal; lia).
  assert (bpow 53 = bpow (mag x) * bpow (53 - mag x)) as ->
    by (rewrite <- bpow_add; f_equal; lia).
  split; nra.
Qed.

Lemma bpow_52 : bpow 52 = IZR (2 ^ 52).
Proof. exact (bpow_IZR 52). Qed.

Lemma bpow_53 : bpow 53 = IZR (2 ^ 53).
Proof. exact (bpow_IZR 53). Qed.

Lemma rnd64_pos_bounds (x : R) :
  0 < x → bpow (mag x - 1) <= rnd64 x <= bpow (mag x).
Proof.
  intros Hx. assert (x <> 0) as Hnz by lra.
  destruct (scaled_mantissa_bounds x Hnz) as [Hlo Hhi].
  pose proof (bpow_pos (53 - mag x)) as Hp.
  rewrite Rabs_pos_eq in Hlo, Hhi by nra.
  set (t := x * bpow (53 - mag x)) in *.
  assert (2 ^ 52 ≤ rne t ≤ 2 ^ 53)%Z as Hr.
  { split.
    - rewrite <- (rne_IZR (2 ^ 52)). apply rne_mono. rewrite <- bpow_52. exact Hlo.
    - rewrite <- (rne_IZR (2 ^ 53)). apply rne_mono. rewrite <- bpow_53. lra. }
  rewrite rnd64_nonzero by exact Hnz. fold t.
  pose proof (bpow_pos (mag x - 53)) as Hq.
  assert (bpow (mag x - 1) = IZR (2 ^ 52) * bpow (mag x - 53)) as ->
    by (rewrite <- bpow_52, <- bpow_add; f_equal; lia).
  assert (bpow (mag x) = IZR (2 ^ 53) * bpow (mag x - 53)) as ->
    by (rewrite <- bpow_53, <- bpow_add; f_equal; lia).
  destruct Hr as [Hr1 Hr2]. apply IZR_le in Hr1, Hr2. split; nra.
Qed.

Lemma rnd64_pos_mono (x y : R) : 0 < x → x <= y → rnd64 x <= rnd64 y.
Proof.
  intros Hx Hxy.
  assert (mag x ≤ mag y)%Z as Hm.
  { apply mag_le; [lra |]. rewrite !Rabs_pos_eq by lra. exact Hxy. }
  destruct (Z.eq_dec (mag x) (mag y)) as [He | Hne].
  - rewrite !rnd64_nonzero by lra. rewrite He.
    pose proof (bpow_pos (mag y - 53)). pose proof (bpow_pos (53 - mag y)).
    apply Rmult_le_compat_r; [lra |]. apply IZR_le, rne_mono. nra.
  - destruct (rnd64_pos_bounds x Hx) as [_ Hxu].
    destruct (rnd64_pos_bounds y ltac:(lra)) as [Hyl _].
    pose proof (bpow_le (mag x) (mag y - 1) ltac:(lia)). lra.
Qed.

Lemma rnd64_pos (x : R) : 0 <= x → 0 <= rnd64 x.
Proof.
  intros Hx. destruct (Req_dec_T x 0) as [-> | Hnz]; [rewrite rnd64_0; lra |].
  destruct (rnd64_pos_bounds x ltac:(lra)) as [Hl _].
  pose proof (bpow_pos (mag x - 1)). lra.
Qed.

Lemma rnd64_neg (x : R) : x <= 0 → rnd64 x <= 0.
Proof.
  intros Hx. pose proof (rnd64_pos (- x) ltac:(lra)) as H.
  rewrite rnd64_opp in H. lra.
Qed.

(** Rounding is monotone. *)
Lemma rnd64_mono (x y : R) : x <= y → rnd64 x <= rnd64 y.
Proof.
  intros Hxy.
  destruct (Rlt_le_dec 0 x) as [Hx | Hx].
  - apply rnd64_pos_mono; assumption.
  - destruct (Rle_lt_dec 0 y) as [Hy | Hy].
    + pose proof (rnd64_neg x Hx). pose proof (rnd64_pos y Hy). lra.
    + pose proof (rnd64_pos_mono (- y) (- x) ltac:(lra) ltac:(lra)) as H.
      rewrite !rnd64_opp in H. lra.
Qed.

(** Rounding leaves the numbers of [format] unchanged. *)
Lemma rnd64_fix (x : R) : format x → rnd64 x = x.
Proof.
  intros (m & e & -> & Hm).
  destruct (Req_dec_T (IZR m * bpow e) 0) as [H0 | Hnz]; [rewrite H0; apply rnd64_0 |].
  set (x := IZR m * bpow e) in *.
  assert (mag x ≤ e + 53)%Z as Hmag.
  { destruct (mag_spec x Hnz) as [Hlo _].
    assert (Rabs x < bpow (e + 53)) as Hlt.
    { subst x. pose proof (bpow_pos e).
      rewrite Rabs_mult, (Rabs_pos_eq (bpow e)), Z.add_comm, bpow_add, bpow_53 by lra.
      apply Rmult_lt_compat_r; [lra |]. rewrite <- abs_IZR. apply IZR_lt, Hm. }
    assert (mag x - 1 < e + 53)%Z by (apply bpow_lt_inv; lra). lia. }
  rewrite rnd64_nonzero by exact Hnz.
  set (k := Z.to_nat (e + 53 - mag x)).
  assert (x * bpow (53 - mag x) = IZR (m * 2 ^ Z.of_nat k)) as Ht.
  { subst x. rewrite Rmult_assoc, <- bpow_add, mult_IZR, <- bpow_IZR.
    do 2 f_equal. lia. }
  rewrite Ht, rne_IZR, mult_IZR, <- bpow_IZR, Rmult_assoc, <- bpow_add.
  subst x. do 2 f_equal. lia.
Qed.

(** The rounding error is at most half a unit in the last place. *)
Lemma rnd64_err (x : R) : Rabs (rnd64 x - x) <= bpow (- 53) * Rabs x.
Proof.
  destruct (Req_dec_T x 0) as [-> | Hx].
  { rewrite rnd64_0, Rminus_0_r, Rabs_R0. lra. }
  rewrite rnd64_nonzero by exact Hx.
  pose proof (rne_err (x * bpow (53 - mag x))) as He.
  destruct (mag_spec x Hx) as [Hlo _].
  pose proof (bpow_pos (mag x - 53)) as Hp.
  set (t := x * bpow (53 - mag x)) in *.
  assert (x = t * bpow (mag x - 53)) as Hxt.
  { subst t. rewrite Rmult_assoc, <- bpow_add.
    replace (53 - mag x + (mag x - 53))%Z with 0%Z by lia. rewrite bpow_0. lra. }
  rewrite Hxt at 2.
  replace (IZR (rne t) * bpow (mag x - 53) - t * bpow (mag x - 53))
    with ((IZR (rne t) - t) * bpow (mag x - 53)) by ring.
  rewrite Rabs_mult, (Rabs_pos_eq (bpow (mag x - 53))) by lra.
  apply Rle_trans with (1 / 2 * bpow (mag x - 53)); [nra |].
  assert (bpow (mag x - 53) = 2 * (bpow (- 53) * bpow (mag x - 1))) as Hb.
  { rewrite <- bpow_1, <- !bpow_add. f_equal. lia. }
  pose proof (bpow_pos (- 53)). rewrite Hb. nra.
Qed.

(** Scaling by a power of two commutes with rounding. *)
Lemma rnd64_scale (x : R) (k : Z) : rnd64 (x * bpow k) = rnd64 x * bpow k.
Proof.
  destruct (Req_dec_T x 0) as [-> | Hx]; [rewrite Rmult_0_l, rnd64_0; lra |].
  pose proof (bpow_pos k) as Hk.
  rewrite !rnd64_nonzero by nra. rewrite mag_scale by exact Hx.
  replace (x * bpow k * bpow (53 - (mag x + k))) with (x * bpow (53 - mag x)).
  - rewrite Rmult_assoc, <- bpow_add. do 2 f_equal. lia.
  - rewrite Rmult_assoc, <- bpow_add. do 2 f_equal. lia.
Qed.

Lemma rnd64_double (x : R) : rnd64 (2 * x) = 2 * rnd64 x.
Proof. rewrite <- bpow_1, (Rmult_comm _ x), rnd64_scale. lra. Qed.

(** Evaluation of a rounding from the binade and the nearest mantissa. *)
Lemma rnd64_eval (x : R) (e n : Z) :
  bpow (e - 1) <= Rabs x < bpow e →
  Rabs (IZR n - x * bpow (53 - e)) < 1 / 2 →
  rnd64 x = IZR n * bpow (e - 53).
Proof.
  intros Hmag Hn. pose proof (mag_unique x e Hmag) as He.
  assert (x <> 0) as Hx.
  { intros ->. rewrite Rabs_R0 in Hmag. pose proof (bpow_pos (e - 1)). lra. }
  rewrite rnd64_nonzero, He by exact Hx. f_equal. f_equal.
  apply rne_char. left. exact Hn.
Qed.

Lemma rnd64_eq_0 (x : R) : rnd64 x = 0 → x = 0.
Proof.
  intros H. destruct (Rtotal_order x 0) as [Hx | [Hx | Hx]]; [| exact Hx |].
  - pose proof (rnd64_pos_bounds (- x) ltac:(lra)) as [Hl _].
    rewrite rnd64_opp, H in Hl. pose proof (bpow_pos (mag (- x) - 1)). lra.
  - pose proof (rnd64_pos_bounds x Hx) as [Hl _].
    rewrite H in Hl. pose proof (bpow_pos (mag x - 1)). lra.
Qed.

(** A rounded value belongs to [format]. *)
Lemma format_rnd64 (x : R) : format (rnd64 x).
Proof.
  destruct (Req_dec_T x 0) as [-> | Hx].
  { rewrite rnd64_0. exists 0%Z, 0%Z. split; [simpl; lra | lia]. }
  rewrite rnd64_nonzero by exact Hx.
  destruct (scaled_mantissa_bounds x Hx) as [_ Hhi].
  set (t := x * bpow (53 - mag x)) in *.
  assert (- 2 ^ 53 ≤ rne t ≤ 2 ^ 53)%Z as Hr.
  { apply Rabs_def2 in Hhi. rewrite bpow_53 in Hhi. split.
    - rewrite <- (rne_IZR (- 2 ^ 53)). apply rne_mono. rewrite opp_IZR. lra.
    - rewrite <- (rne_IZR (2 ^ 53)). apply rne_mono. lra. }
  assert (IZR (2 ^ 53) = IZR (2 ^ 52) * 2) as H53
    by (rewrite <- mult_IZR; reflexivity).
  destruct (Z.eq_dec (rne t) (2 ^ 53)%Z) as [Heq | Hne].
  { exists (2 ^ 52)%Z, (mag x - 53 + 1)%Z. split; [| reflexivity].
    rewrite Heq, bpow_add, bpow_1, H53. lra. }
  destruct (Z.eq_dec (rne t) (- 2 ^ 53)%Z) as [Heq' | Hne'].
  { exists (- 2 ^ 52)%Z, (mag x - 53 + 1)%Z. split; [| reflexivity].
    rewrite Heq', bpow_add, bpow_1, !opp_IZR, H53. lra. }
  exists (rne t), (mag x - 53)%Z. split; [reflexivity | lia].
Qed.

Lemma format_IZR (n : Z) : (Z.abs n < 2 ^ 53)%Z → format (IZR n).
Proof. intros Hn. exists n, 0%Z. split; [rewrite bpow_0; lra | exact Hn]. Qed.

Lemma format_dyadic (n : Z) (k : nat) :
  (Z.abs n < 2 ^ 53)%Z → format (IZR n / IZR (2 ^ Z.of_nat k)).
Proof.
  intros Hn. exists n, (- Z.of_nat k)%Z. split; [| exact Hn].
  rewrite bpow_opp, bpow_IZR. reflexivity.
Qed.

End Rounding.

(** ** Float arithmetic *)

Section FloatArithmetic.
Local Open Scope R_scope.

Lemma format_opp (x : R) : format x → format (- x).
Proof.
  intros (m & e & -> & Hm). exists (- m)%Z, e. split; [rewrite opp_IZR; lra | lia].
Qed.

Lemma format_0 : format 0.
Proof. exact (format_IZR 0 ltac:(reflexivity)). Qed.

Lemma format_1 : format 1.
Proof. exact (format_IZR 1 ltac:(reflexivity)). Qed.

Lemma rnd64_1 : rnd64 1 = 1.
Proof. apply rnd64_fix, format_1. Qed.

Lemma rnd64_IZR (n : Z) : (Z.abs n < 2 ^ 53)%Z → rnd64 (IZR n) = IZR n.
Proof. intros Hn. apply rnd64_fix, format_IZR, Hn. Qed.

Lemma rnd64_abs (x : R) : Rabs (rnd64 x) = rnd64 (Rabs x).
Proof.
  destruct (Rle_lt_dec 0 x) as [Hx | Hx].
  - rewrite (Rabs_pos_eq x) by exact Hx. apply Rabs_pos_eq, rnd64_pos, Hx.
  - rewrite (Rabs_left x) by exact Hx. rewrite rnd64_opp.
    apply Rabs_left1, rnd64_neg. lra.
Qed.

Lemma rnd64_abs_le (x y : R) : Rabs x <= Rabs y → Rabs (rnd64 x) <= Rabs (rnd64 y).
Proof. intros H. rewrite !rnd64_abs. apply rnd64_mono, H. Qed.

Lemma rnd64_le_format (x b : R) : format b → x <= b → rnd64 x <= b.
Proof. intros Hb Hx. rewrite <- (rnd64_fix b Hb). apply rnd64_mono, Hx. Qed.

Lemma rnd64_ge_format (x b : R) : format b → b <= x → b <= rnd64 x.
Proof. intros Hb Hx. rewrite <- (rnd64_fix b Hb). apply rnd64_mono, Hx. Qed.

Lemma rnd64_abs_le_format (x b : R) : format b → Rabs x <= b → Rabs (rnd64 x) <= b.
Proof. intros Hb Hx. rewrite rnd64_abs. apply rnd64_le_format; assumption. Qed.

Lemma fmul_0_l (x : R) : fmul 0 x = 0.
Proof. unfold fmul. rewrite Rmult_0_l. apply rnd64_0. Qed.

Lemma fmul_0_r (x : R) : fmul x 0 = 0.
Proof. unfold fmul. rewrite Rmult_0_r. apply rnd64_0. Qed.

Lemma fmul_1_r (x : R) : format x → fmul x 1 = x.
Proof. intros Hx. unfold fmul. rewrite Rmult_1_r. apply rnd64_fix, Hx. Qed.

Lemma fmul_opp_l (x y : R) : fmul (- x) y = - fmul x y.
Proof. unfold fmul. rewrite <- rnd64_opp. f_equal. lra. Qed.

Lemma fmul_opp_r (x y : R) : fmul x (- y) = - fmul x y.
Proof. unfold fmul. rewrite <- rnd64_opp. f_equal. lra. Qed.

Lemma fadd_0_r (x : R) : format x → fadd x 0 = x.
Proof. intros Hx. unfold fadd. rewrite Rplus_0_r. apply rnd64_fix, Hx. Qed.

Lemma format_fmul (x y : R) : format (fmul x y).
Proof. apply format_rnd64. Qed.

Lemma fsub_1_0 : fsub 1 0 = 1.
Proof. unfold fsub. rewrite Rminus_0_r. apply rnd64_1. Qed.

Lemma fsub_0_1 : fsub 0 1 = -1.
Proof.
  unfold fsub. replace (0 - 1) with (- (1)) by lra. rewrite rnd64_opp, rnd64_1. reflexivity.
Qed.

(** A product with a factor between 0 and 1 does not grow. *)
Lemma fmul_attenuates (v u : R) :
  format v → 0 <= u <= 1 → Rabs (fmul v u) <= Rabs v ∧ 0 <= fmul v u * v.
Proof.
  intros Hv Hu. unfold fmul. split.
  - rewrite <- (rnd64_fix v Hv) at 2. apply rnd64_abs_le.
    rewrite Rabs_mult, (Rabs_pos_eq u) by lra. pose proof (Rabs_pos v). nra.
  - destruct (Rle_lt_dec 0 v) as [H0 | H0].
    + pose proof (rnd64_pos (v * u) ltac:(nra)). nra.
    + pose proof (rnd64_neg (v * u) ltac:(nra)). nra.
Qed.

Lemma fmul_unit_bound (v u : R) : Rabs v <= 1 → 0 <= u <= 1 → Rabs (fmul v u) <= 1.
Proof.
  intros Hv Hu. unfold fmul. apply rnd64_abs_le_format; [apply format_1 |].
  rewrite Rabs_mult, (Rabs_pos_eq u) by lra. pose proof (Rabs_pos v). nra.
Qed.

Lemma of_int_small (z : Z) : (Z.abs z < 2 ^ 53)%Z → of_int z = IZR z.
Proof. apply rnd64_IZR. Qed.

Lemma of_int_0 : of_int 0 = 0.
Proof. apply rnd64_0. Qed.

Lemma of_int_mono (a b : Z) : (a ≤ b)%Z → of_int a <= of_int b.
Proof. intros H. apply rnd64_mono, IZR_le, H. Qed.

Lemma of_int_pos (z : Z) : (0 < z)%Z → 1 <= of_int z.
Proof.
  intros Hz. apply rnd64_ge_format; [apply format_1 |]. apply (IZR_le 1). lia.
Qed.

Lemma of_int_nonneg (z : Z) : (0 ≤ z)%Z → 0 <= of_int z.
Proof. intros Hz. apply rnd64_pos, (IZR_le 0), Hz. Qed.

Lemma fsin_bound (x : R) : -1 <= fsin x <= 1.
Proof.
  pose proof (SIN_bound x) as [Hl Hu]. unfold fsin. split.
  - apply rnd64_ge_format; [apply format_opp, format_1 | exact Hl].
  - apply rnd64_le_format; [apply format_1 | exact Hu].
Qed.

Lemma fsin_0 : fsin 0 = 0.
Proof. unfold fsin. rewrite sin_0. apply rnd64_0. Qed.

Lemma fsin_opp (x : R) : fsin (- x) = - fsin x.
Proof. unfold fsin. rewrite sin_neg. apply rnd64_opp. Qed.

Lemma format_fsin (x : R) : format (fsin x).
Proof. apply format_rnd64. Qed.

(** One plus half a unit in the last place rounds to one (the tie goes
    to the even mantissa). *)
Lemma rnd64_one_half_ulp : rnd64 (1 + bpow (- 53)) = 1.
Proof.
  pose proof (bpow_pos (- 53)) as Hp.
  assert (bpow (- 53) * bpow 52 = 1 / 2) as Hhalf.
  { rewrite <- bpow_add. unfold bpow. simpl. lra. }
  assert (bpow (- 53) < 1) as Hlt.
  { rewrite <- bpow_0. apply bpow_lt. lia. }
  assert (mag (1 + bpow (- 53)) = 1%Z) as Hmag.
  { apply mag_unique. rewrite Rabs_pos_eq by lra.
    replace (1 - 1)%Z with 0%Z by lia. rewrite bpow_0, bpow_1. lra. }
  rewrite rnd64_nonzero, Hmag by lra.
  replace (53 - 1)%Z with 52%Z by lia. replace (1 - 53)%Z with (- 52)%Z by lia.
  rewrite (rne_char _ (2 ^ 52)%Z).
  - rewrite <- bpow_52, <- bpow_add. reflexivity.
  - right. split; [| reflexivity].
    rewrite Rmult_plus_distr_r, Rmult_1_l, Hhalf, <- bpow_52.
    replace (bpow 52 - (bpow 52 + 1 / 2)) with (- (1 / 2)) by lra.
    rewrite Rabs_Ropp. apply Rabs_pos_eq. lra.
Qed.

(** A float times the rounded reciprocal of a larger float stays at most
    one after rounding. *)
Lemma fmul_reciprocal_le_1 (a m : R) :
  0 <= a <= m → 0 < m → fmul a (fdiv 1 m) <= 1.
Proof.
  intros Ha Hm. unfold fmul, fdiv.
  apply Rle_trans with (rnd64 (1 + bpow (- 53)));
    [apply rnd64_mono | rewrite rnd64_one_half_ulp; lra].
  pose proof (rnd64_err (1 / m)) as He. apply Rabs_le_bounds in He.
  assert (0 < 1 / m) as Hinv by (apply Rdiv_lt_0_compat; lra).
  rewrite (Rabs_pos_eq (1 / m)) in He by lra.
  assert (m * (1 / m) = 1) as Hm1 by (field; lra).
  pose proof (bpow_pos (- 53)) as Hp.
  pose proof (rnd64_pos (1 / m) ltac:(lra)) as Hr.
  set (q := 1 / m) in *. set (r := rnd64 q) in *.
  assert (m * r <= 1 + bpow (- 53)) as Hmr.
  { assert (m * r = 1 + m * (r - q)) as -> by lra.
    assert (m * (r - q) <= m * (bpow (- 53) * q)) by (apply Rmult_le_compat_l; lra).
    assert (m * (bpow (- 53) * q) = bpow (- 53)) as Heq.
    { replace (m * (bpow (- 53) * q)) with (bpow (- 53) * (m * q)) by ring.
      rewrite Hm1. ring. }
    lra. }
  apply Rle_trans with (m * r); [apply Rmult_le_compat_r; lra | exact Hmr].
Qed.

Lemma fmul_nonneg (a b : R) : 0 <= a → 0 <= b → 0 <= fmul a b.
Proof. intros Ha Hb. apply rnd64_pos. nra. Qed.

End FloatArithmetic.

(** * The program *)

(** ** Running the operations *)

Section Runs.

Lemma bind_run {A B : Type} (m : M A) (k : A → M B) (s : store) :
  (m ≫= k) s
  = match m s with
    | Ok a s' => k a s'
    | Raise e => Raise e
    | Stuck => Stuck
    end.
Proof. reflexivity. Qed.

Lemma lookup_store_app (s l : store) (k : nat) :
  (s ++ l) !! (length s + k)%nat = l !! k.
Proof. rewrite lookup_app_r by lia. f_equal. lia. Qed.

Lemma load_run (r : ref) (x : ndarray) (s : store) :
  s !! r = Some x → load r s = Ok x s.
Proof. intros H. unfold load. rewrite H. reflexivity. Qed.

Lemma store_at_run (r : ref) (x x' : ndarray) (s : store) :
  s !! r = Some x → store_at r x' s = Ok tt (<[r := x']> s).
Proof. intros H. unfold store_at. rewrite H. reflexivity. Qed.

Lemma slice_run (r : ref) (start stop : option Z) (x : ndarray) (s : store) :
  s !! r = Some x →
  slice r start stop s
  = Ok (View r (slice_bounds start stop (length x)).1
               (slice_bounds start stop (length x)).2) s.
Proof.
  intros H. unfold slice. rewrite bind_run, (load_run r x) by exact H.
  destruct (slice_bounds start stop (length x)); reflexivity.
Qed.

Lemma astype_run (r : ref) (x : ndarray) (s : store) :
  s !! r = Some x → astype r s = Ok (astype_int16 <$> x) s.
Proof. intros H. unfold astype. rewrite bind_run, (load_run r x) by exact H. reflexivity. Qed.

Lemma lookup_store_eq (s l : store) (k : nat) (r : ref) (x : ndarray) :
  r = (length s + k)%nat → l !! k = Some x → (s ++ l) !! r = Some x.
Proof. intros -> H. rewrite lookup_store_app. exact H. Qed.

Lemma insert_store_eq (s l : store) (k : nat) (r : ref) (x : ndarray) :
  r = (length s + k)%nat → <[r := x]> (s ++ l) = s ++ <[k := x]> l.
Proof. intros ->. apply insert_app_r. Qed.

Lemma slice_bounds_head (F : Z) (len : nat) :
  (0 < F)%Z → slice_bounds None (Some F) len = (0, Z.to_nat F `min` len)%nat.
Proof.
  intros HF. unfold slice_bounds, adjust_index. cbv [default from_option Datatypes.id].
  replace (0 <? 0)%Z with false by reflexivity.
  replace (F <? 0)%Z with false by (symmetry; apply Z.ltb_ge; lia).
  f_equal; lia.
Qed.

Lemma slice_bounds_tail (F : Z) (len : nat) :
  (0 < F)%Z →
  slice_bounds (Some (- F)%Z) None len
  = (len - Z.to_nat F, Z.to_nat F `min` len)%nat.
Proof.
  intros HF. unfold slice_bounds, adjust_index. cbv [default from_option Datatypes.id].
  replace (- F <? 0)%Z with true by (symmetry; apply Z.ltb_lt; lia).
  replace (Z.of_nat len <? 0)%Z with false by (symmetry; apply Z.ltb_ge; lia).
  f_equal; lia.
Qed.

End Runs.

(** ** A run of [generate_tone] from any store *)

Section ToneRun.
Local Open Scope R_scope.

Lemma np_linspace_run (start stop : R) (num : Z) (endpoint : bool) (s : store) :
  np_linspace start stop num endpoint s
  = if (num <? 0)%Z then Raise ValueError
    else Ok (length s) (s ++ [linspace_values start stop num endpoint]).
Proof. unfold np_linspace. destruct (num <? 0)%Z; reflexivity. Qed.

Lemma scalar_mul_run (c : R) (r : ref) (x : ndarray) (s : store) :
  s !! r = Some x → scalar_mul c r s = Ok (length s) (s ++ [fmul c <$> x]).
Proof. intros H. unfold scalar_mul. rewrite bind_run, (load_run r x) by exact H. reflexivity. Qed.

Lemma mul_scalar_run (c : R) (r : ref) (x : ndarray) (s : store) :
  s !! r = Some x → mul_scalar r c s = Ok (length s) (s ++ [(λ v, fmul v c) <$> x]).
Proof. intros H. unfold mul_scalar. rewrite bind_run, (load_run r x) by exact H. reflexivity. Qed.

Lemma np_sin_run (r : ref) (x : ndarray) (s : store) :
  s !! r = Some x → np_sin r s = Ok (length s) (s ++ [fsin <$> x]).
Proof. intros H. unfold np_sin. rewrite bind_run, (load_run r x) by exact H. reflexivity. Qed.

Lemma imul_run (v : view) (rhs : ref) (x b : ndarray) (s : store) :
  s !! base v = Some x → s !! rhs = Some b →
  imul v rhs s
  = match imul_values x (offset v) (extent v) b with
    | Some x' => Ok tt (<[base v := x']> s)
    | None => Raise ValueError
    end.
Proof.
  intros Hx Hb. unfold imul.
  rewrite bind_run, (load_run _ x) by exact Hx.
  rewrite bind_run, (load_run _ b) by exact Hb.
  destruct (imul_values _ _ _ _); [| reflexivity].
  apply (store_at_run _ x), Hx.
Qed.

Lemma length_imul_values (x x' b : ndarray) (off ext : nat) :
  imul_values x off ext b = Some x' → length x' = length x.
Proof.
  unfold imul_values. intros H.
  assert (∀ seg : ndarray, length seg = length (take ext (drop off x)) →
            length (take off x ++ seg ++ drop (off + ext) x) = length x) as Hlen.
  { intros seg Hseg. rewrite !length_app, Hseg, !length_take, !length_drop. lia. }
  destruct (decide (length b = ext)) as [Hb | Hb].
  - inversion H; subst x'. apply Hlen.
    rewrite length_zip_with, length_take, length_drop. lia.
  - destruct b as [| c [| ? ?]]; inversion H; subst x'.
    apply Hlen. apply length_fmap.
Qed.

Lemma lookup_imul_values (x b x' : ndarray) (off ext i : nat) :
  (off + ext ≤ length x)%nat → length b = ext →
  imul_values x off ext b = Some x' →
  x' !! i
  = if decide (off ≤ i < off + ext)%nat
    then v ← x !! i; c ← b !! (i - off)%nat; Some (fmul v c)
    else x !! i.
Proof.
  intros Hlen Hb H. unfold imul_values in H.
  rewrite decide_True in H by exact Hb. inversion H; subst x'; clear H.
  destruct (decide (i < off)%nat) as [Hlo | Hlo].
  - rewrite lookup_app_l by (rewrite length_take; lia).
    rewrite lookup_take_lt by exact Hlo.
    rewrite decide_False by lia. reflexivity.
  - rewrite lookup_app_r by (rewrite length_take; lia).
    rewrite length_take, Nat.min_l by lia.
    assert (length (zip_with fmul (take ext (drop off x)) b) = ext) as Hz.
    { rewrite length_zip_with, length_take, length_drop. lia. }
    destruct (decide (i < off + ext)%nat) as [Hhi | Hhi].
    + rewrite lookup_app_l by lia.
      rewrite decide_True by lia.
      rewrite lookup_zip_with, lookup_take_lt, lookup_drop by lia.
      replace (off + (i - off))%nat with i by lia. reflexivity.
    + rewrite lookup_app_r by lia. rewrite Hz, lookup_drop.
      rewrite decide_False by lia. f_equal. lia.
Qed.

Ltac store_lookup :=
  rewrite ?length_app; cbn [length];
  first [ apply (lookup_store_eq _ _ 0); [lia | reflexivity]
        | apply (lookup_store_eq _ _ 1); [lia | reflexivity]
        | apply (lookup_store_eq _ _ 2); [lia | reflexivity]
        | apply (lookup_store_eq _ _ 3); [lia | reflexivity]
        | apply (lookup_store_eq _ _ 4); [lia | reflexivity]
        | apply (lookup_store_eq _ _ 5); [lia | reflexivity] ].

Ltac next_store := rewrite <- ?app_assoc; cbn [app].

Lemma generate_tone_run (frequency duration : R) (sample_rate : Z)
    (fade_duration : R) (s : store) :
  generate_tone frequency duration sample_rate fade_duration s
  = match final_audio frequency duration sample_rate fade_duration with
    | Some audio =>
        Ok (quantize audio)
           (s ++ allocated frequency duration sample_rate fade_duration audio)
    | None => Raise ValueError
    end.
Proof.
  unfold generate_tone, final_audio, allocated.
  fold (sample_count duration sample_rate) (fade_count sample_rate fade_duration).
  set (N := sample_count duration sample_rate).
  set (F := fade_count sample_rate fade_duration).
  rewrite bind_run, np_linspace_run.
  destruct (N <? 0)%Z; [reflexivity |].
  fold (time_points duration N).
  rewrite bind_run, (scalar_mul_run _ _ (time_points duration N)) by store_lookup.
  fold (phase_values frequency duration N). next_store.
  rewrite bind_run, (np_sin_run _ (phase_values frequency duration N)) by store_lookup.
  fold (raw_audio frequency duration N). next_store.
  set (raw := raw_audio frequency duration N).
  rewrite bind_run.
  destruct (0 <? F)%Z eqn:HF.
  - apply Z.ltb_lt in HF.
    rewrite bind_run, np_linspace_run.
    replace (F <? 0)%Z with false by (symmetry; apply Z.ltb_ge; lia).
    next_store. fold (fade_in_values F).
    rewrite bind_run, (slice_run _ _ _ raw) by store_lookup.
    unfold faded_audio.
    destruct (slice_bounds None (Some F) (length raw)) as [o1 e1]. cbn [fst snd].
    rewrite bind_run, (imul_run _ _ raw (fade_in_values F)) by (cbn [base]; store_lookup).
    cbn [base offset extent].
    destruct (imul_values raw o1 e1 (fade_in_values F)) as [x1 |] eqn:H1; [| reflexivity].
    cbn [mbind option_bind].
    rewrite (insert_store_eq _ _ 2) by (rewrite ?length_app; cbn [length]; lia).
    cbn [list_insert insert].
    rewrite bind_run, np_linspace_run.
    replace (F <? 0)%Z with false by (symmetry; apply Z.ltb_ge; lia).
    next_store. fold (fade_out_values F).
    rewrite bind_run, (slice_run _ _ _ x1) by store_lookup.
    destruct (slice_bounds (Some (- F)%Z) None (length x1)) as [o2 e2]. cbn [fst snd].
    rewrite (imul_run _ _ x1 (fade_out_values F)) by (cbn [base]; store_lookup).
    cbn [base offset extent].
    destruct (imul_values x1 o2 e2 (fade_out_values F)) as [x2 |] eqn:H2; [| reflexivity].
    rewrite (insert_store_eq _ _ 2) by (rewrite ?length_app; cbn [length]; lia).
    cbn [list_insert insert].
    rewrite bind_run, (mul_scalar_run _ _ x2) by store_lookup.
    next_store. fold (scaled_values x2).
    rewrite (astype_run _ (scaled_values x2)) by store_lookup.
    reflexivity.
  - cbn [mret M_ret].
    rewrite bind_run, (mul_scalar_run _ _ raw) by store_lookup.
    next_store. fold (scaled_values raw).
    rewrite (astype_run _ (scaled_values raw)) by store_lookup.
    reflexivity.
Qed.

End ToneRun.

(** ** The contents of the arrays *)

Section Contents.
Local Open Scope R_scope.

Lemma length_arange (num : Z) : length (arange num) = Z.to_nat num.
Proof. unfold arange. rewrite length_fmap. apply length_seqZ. Qed.

Lemma lookup_arange (num : Z) (i : nat) :
  (i < Z.to_nat num)%nat → arange num !! i = Some (of_int (Z.of_nat i)).
Proof.
  intros Hi. unfold arange. rewrite list_lookup_fmap, lookup_seqZ_lt by lia.
  reflexivity.
Qed.

Lemma length_linspace_values (start stop : R) (num : Z) (endpoint : bool) :
  length (linspace_values start stop num endpoint) = Z.to_nat num.
Proof.
  unfold linspace_values.
  repeat match goal with
         | |- context [if ?b then _ else _] => destruct b
         end;
    rewrite ?length_insert, !length_fmap; apply length_arange.
Qed.

Lemma fdiv_eq_0 (x y : R) : y <> 0 → fdiv x y = 0 → x = 0.
Proof.
  intros Hy H. apply rnd64_eq_0 in H.
  apply (Rmult_eq_compat_r y) in H. field_simplify in H; [lra | exact Hy].
Qed.

(** Without the endpoint: the index times the rounded step, plus the
    start. *)
Lemma lookup_linspace_open (start stop : R) (num : Z) (i : nat) :
  (i < Z.to_nat num)%nat →
  linspace_values start stop num false !! i
  = Some (fadd (fmul (of_int (Z.of_nat i)) (fdiv (fsub stop start) (of_int num))) start).
Proof.
  intros Hi. unfold linspace_values. simpl.
  assert (0 < num)%Z as Hnum by lia.
  apply Z.ltb_lt in Hnum as Hb. rewrite Hb.
  assert (of_int num <> 0) as Hnz by (pose proof (of_int_pos num Hnum); lra).
  destruct (Req_dec_T (fdiv (fsub stop start) (of_int num)) 0) as [Hz | Hz];
    rewrite !list_lookup_fmap, lookup_arange by assumption; simpl; [| reflexivity].
  rewrite Hz. apply fdiv_eq_0 in Hz; [| exact Hnz]. rewrite Hz.
  rewrite !fmul_0_r. reflexivity.
Qed.

Lemma linspace_closed_one (start stop : R) :
  linspace_values start stop 1 true = [fadd (fmul (of_int 0) (fsub stop start)) start].
Proof. reflexivity. Qed.

(** With the endpoint and more than one point: as above up to the last
    point, which is [stop] itself. *)
Lemma lookup_linspace_closed (start stop : R) (num : Z) (i : nat) :
  (1 < num)%Z → (i < Z.to_nat num)%nat →
  linspace_values start stop num true !! i
  = Some (if (Z.of_nat i =? num - 1)%Z then stop
          else fadd (fmul (of_int (Z.of_nat i))
                          (fdiv (fsub stop start) (of_int (num - 1)))) start).
Proof.
  intros Hnum Hi. unfold linspace_values. simpl.
  assert ((0 <? num - 1)%Z = true) as -> by (apply Z.ltb_lt; lia).
  assert ((1 <? num)%Z = true) as -> by (apply Z.ltb_lt; lia).
  assert (of_int (num - 1) <> 0) as Hnz
    by (pose proof (of_int_pos (num - 1) ltac:(lia)); lra).
  set (y := (λ v, fadd v start) <$> _).
  assert (length y = Z.to_nat num) as Hlen.
  { subst y. destruct (Req_dec_T _ _); rewrite !length_fmap; apply length_arange. }
  assert (y !! i = Some (fadd (fmul (of_int (Z.of_nat i))
                           (fdiv (fsub stop start) (of_int (num - 1)))) start)) as Hy.
  { subst y.
    destruct (Req_dec_T (fdiv (fsub stop start) (of_int (num - 1))) 0) as [Hz | Hz];
      rewrite !list_lookup_fmap, lookup_arange by assumption; simpl; [| reflexivity].
    rewrite Hz. apply fdiv_eq_0 in Hz; [| exact Hnz]. rewrite Hz.
    rewrite !fmul_0_r. reflexivity. }
  destruct (Z.of_nat i =? num - 1)%Z eqn:Hlast.
  - apply Z.eqb_eq in Hlast.
    replace i with (pred (length y)) by lia.
    apply list_lookup_insert_eq. lia.
  - apply Z.eqb_neq in Hlast.
    rewrite list_lookup_insert_ne by lia. exact Hy.
Qed.

Lemma length_time_points (duration : R) (N : Z) :
  length (time_points duration N) = Z.to_nat N.
Proof. apply length_linspace_values. Qed.

Lemma length_raw_audio (frequency duration : R) (N : Z) :
  length (raw_audio frequency duration N) = Z.to_nat N.
Proof.
  unfold raw_audio, phase_values. rewrite !length_fmap. apply length_time_points.
Qed.

Lemma lookup_time_points (duration : R) (N : Z) (i : nat) :
  (i < Z.to_nat N)%nat → time_points duration N !! i = Some (time_point duration N i).
Proof.
  intros Hi. unfold time_points, time_point. rewrite lookup_linspace_open by exact Hi.
  f_equal. apply fadd_0_r, format_fmul.
Qed.

Lemma lookup_phase_values (frequency duration : R) (N : Z) (i : nat) :
  (i < Z.to_nat N)%nat →
  phase_values frequency duration N !! i
  = Some (fmul (fmul (fmul 2 pi64) frequency) (time_point duration N i)).
Proof.
  intros Hi. unfold phase_values.
  rewrite list_lookup_fmap, lookup_time_points by exact Hi. reflexivity.
Qed.

Lemma lookup_raw_audio (frequency duration : R) (N : Z) (i : nat) :
  (i < Z.to_nat N)%nat →
  raw_audio frequency duration N !! i = Some (raw_sample frequency duration N i).
Proof.
  intros Hi. unfold raw_audio.
  rewrite list_lookup_fmap, lookup_phase_values by exact Hi. reflexivity.
Qed.

Lemma length_fade_in_values (F : Z) : length (fade_in_values F) = Z.to_nat F.
Proof. apply length_linspace_values. Qed.

Lemma length_fade_out_values (F : Z) : length (fade_out_values F) = Z.to_nat F.
Proof. apply length_linspace_values. Qed.

Lemma lookup_fade_in_values (F : Z) (j : nat) :
  (j < Z.to_nat F)%nat → fade_in_values F !! j = Some (ramp_up F j).
Proof.
  intros Hj. unfold fade_in_values, ramp_up.
  destruct (F =? 1)%Z eqn:HF.
  - apply Z.eqb_eq in HF. subst F. rewrite linspace_closed_one.
    destruct j; [| simpl in Hj; lia]. simpl. f_equal.
    rewrite of_int_0, fmul_0_l. apply fadd_0_r, format_0.
  - apply Z.eqb_neq in HF. rewrite lookup_linspace_closed by lia. f_equal.
    destruct (Z.of_nat j =? F - 1)%Z; [reflexivity |].
    rewrite fsub_1_0. apply fadd_0_r, format_fmul.
Qed.

Lemma lookup_fade_out_values (F : Z) (j : nat) :
  (j < Z.to_nat F)%nat → fade_out_values F !! j = Some (ramp_down F j).
Proof.
  intros Hj. unfold fade_out_values, ramp_down.
  destruct (F =? 1)%Z eqn:HF.
  - apply Z.eqb_eq in HF. subst F. rewrite linspace_closed_one.
    destruct j; [| simpl in Hj; lia]. simpl. f_equal.
    rewrite of_int_0, fmul_0_l. unfold fadd. rewrite Rplus_0_l. apply rnd64_1.
  - apply Z.eqb_neq in HF. rewrite lookup_linspace_closed by lia. f_equal.
    destruct (Z.of_nat j =? F - 1)%Z; [reflexivity |].
    rewrite fsub_0_1. reflexivity.
Qed.

End Contents.

(** ** Fades and bounds *)

Section Fades.
Local Open Scope R_scope.

Lemma faded_audio_fits (raw : ndarray) (F : Z) :
  (0 < F)%Z → (Z.to_nat F ≤ length raw)%nat →
  ∃ x2 : ndarray,
    faded_audio raw F = Some x2 ∧ length x2 = length raw ∧
    ∀ (i : nat) (v : R), raw !! i = Some v →
      x2 !! i
      = Some (fade_out_applied (Z.of_nat (length raw)) F i (fade_in_applied F i v)).
Proof.
  intros HF Hfit. unfold faded_audio.
  rewrite slice_bounds_head by exact HF. rewrite Nat.min_l by exact Hfit.
  destruct (imul_values raw 0 (Z.to_nat F) (fade_in_values F)) as [x1 |] eqn:H1.
  2:{ unfold imul_values in H1.
      rewrite decide_True in H1 by apply length_fade_in_values. discriminate. }
  cbn [mbind option_bind].
  pose proof (length_imul_values _ _ _ _ _ H1) as Hl1.
  rewrite slice_bounds_tail by exact HF. rewrite Hl1, Nat.min_l by exact Hfit.
  destruct (imul_values x1 (length raw - Z.to_nat F) (Z.to_nat F) (fade_out_values F))
    as [x2 |] eqn:H2.
  2:{ unfold imul_values in H2.
      rewrite decide_True in H2 by apply length_fade_out_values. discriminate. }
  pose proof (length_imul_values _ _ _ _ _ H2) as Hl2.
  exists x2. split; [reflexivity |]. split; [congruence |].
  intros i v Hv. apply lookup_lt_Some in Hv as Hi.
  assert (0 + Z.to_nat F ≤ length raw)%nat as Hfit1 by lia.
  assert (length raw - Z.to_nat F + Z.to_nat F ≤ length x1)%nat as Hfit2 by lia.
  rewrite (lookup_imul_values _ _ _ _ _ i Hfit2 (length_fade_out_values F) H2).
  rewrite (lookup_imul_values _ _ _ _ _ i Hfit1 (length_fade_in_values F) H1).
  rewrite Hv. unfold fade_in_applied, fade_out_applied.
  assert (x1i : (if decide (0 ≤ i < 0 + Z.to_nat F)%nat
                 then v0 ← Some v; c ← fade_in_values F !! (i - 0)%nat; Some (fmul v0 c)
                 else Some v)
                = Some (if (Z.of_nat i <? F)%Z then fmul v (ramp_up F i) else v)).
  { destruct (Z.of_nat i <? F)%Z eqn:Hin;
      [apply Z.ltb_lt in Hin; rewrite decide_True by lia
      | apply Z.ltb_ge in Hin; rewrite decide_False by lia]; [| reflexivity].
    cbn [mbind option_bind]. rewrite Nat.sub_0_r.
    rewrite lookup_fade_in_values by lia. reflexivity. }
  rewrite x1i. clear x1i.
  destruct (Z.of_nat (length raw) - F <=? Z.of_nat i)%Z eqn:Hout;
    [apply Z.leb_le in Hout; rewrite decide_True by lia
    | apply Z.leb_gt in Hout; rewrite decide_False by lia]; [| reflexivity].
  cbn [mbind option_bind].
  rewrite lookup_fade_out_values by lia. cbn [mbind option_bind].
  do 3 f_equal. lia.
Qed.

Lemma fdiv_1_pos (m : R) : 0 < m → 0 <= fdiv 1 m.
Proof. intros Hm. apply rnd64_pos. apply Rlt_le, Rdiv_lt_0_compat; lra. Qed.

Lemma fdiv_m1 (m : R) : fdiv (-1) m = - fdiv 1 m.
Proof. unfold fdiv. rewrite <- rnd64_opp. f_equal. unfold Rdiv. ring. Qed.

Lemma ramp_product_bounds (F : Z) (j : nat) :
  (1 < F)%Z → (Z.of_nat j < F)%Z →
  0 <= fmul (of_int (Z.of_nat j)) (fdiv 1 (of_int (F - 1))) <= 1.
Proof.
  intros HF Hj.
  pose proof (of_int_pos (F - 1) ltac:(lia)) as Hm.
  pose proof (of_int_nonneg (Z.of_nat j) ltac:(lia)) as Ha.
  pose proof (of_int_mono (Z.of_nat j) (F - 1) ltac:(lia)) as Hle.
  split.
  - apply fmul_nonneg; [exact Ha | apply fdiv_1_pos; lra].
  - apply fmul_reciprocal_le_1; lra.
Qed.

Lemma ramp_up_bounds (F : Z) (j : nat) :
  (Z.of_nat j < F)%Z → 0 <= ramp_up F j <= 1.
Proof.
  intros Hj. unfold ramp_up.
  destruct (F =? 1)%Z eqn:H1; [lra |]. apply Z.eqb_neq in H1.
  destruct (Z.of_nat j =? F - 1)%Z; [lra |].
  apply ramp_product_bounds; lia.
Qed.

Lemma ramp_down_bounds (F : Z) (j : nat) :
  (Z.of_nat j < F)%Z → 0 <= ramp_down F j <= 1.
Proof.
  intros Hj. unfold ramp_down.
  destruct (F =? 1)%Z eqn:H1; [lra |]. apply Z.eqb_neq in H1.
  destruct (Z.of_nat j =? F - 1)%Z; [lra |].
  pose proof (ramp_product_bounds F j ltac:(lia) Hj) as Hp.
  rewrite fdiv_m1, fmul_opp_r. unfold fadd. split.
  - apply rnd64_pos. lra.
  - apply rnd64_le_format; [apply format_1 | lra].
Qed.

Lemma fade_in_applied_bound (F : Z) (i : nat) (v : R) :
  Rabs v <= 1 → Rabs (fade_in_applied F i v) <= 1.
Proof.
  intros Hv. unfold fade_in_applied.
  destruct (Z.of_nat i <? F)%Z eqn:Hi; [| exact Hv].
  apply Z.ltb_lt in Hi. apply fmul_unit_bound; [exact Hv | apply ramp_up_bounds, Hi].
Qed.

Lemma fade_out_index (N F : Z) (i : nat) :
  (Z.of_nat i < N)%Z → (N - F ≤ Z.of_nat i)%Z →
  (Z.of_nat (i - Z.to_nat (N - F)) < F)%Z.
Proof. lia. Qed.

Lemma fade_out_applied_bound (N F : Z) (i : nat) (v : R) :
  (Z.of_nat i < N)%Z → Rabs v <= 1 → Rabs (fade_out_applied N F i v) <= 1.
Proof.
  intros HiN Hv. unfold fade_out_applied.
  destruct (N - F <=? Z.of_nat i)%Z eqn:Hi; [| exact Hv].
  apply Z.leb_le in Hi.
  apply fmul_unit_bound; [exact Hv | apply ramp_down_bounds, fade_out_index; assumption].
Qed.

Lemma raw_sample_bound (frequency duration : R) (N : Z) (i : nat) :
  Rabs (raw_sample frequency duration N i) <= 1.
Proof. unfold raw_sample. apply Rabs_le, fsin_bound. Qed.

Lemma faded_sample_bounded (frequency duration : R) (N F : Z) (i : nat) :
  (Z.of_nat i < N)%Z → Rabs (faded_sample frequency duration N F i) <= 1.
Proof.
  intros Hi. unfold faded_sample.
  apply fade_out_applied_bound; [exact Hi |].
  apply fade_in_applied_bound, raw_sample_bound.
Qed.

Lemma format_32767 : format 32767.
Proof. exact (format_IZR 32767 ltac:(reflexivity)). Qed.

(** The scaled amplitude fits in 16 bits: the cast truncates and does
    not wrap. *)
Lemma astype_int16_sample (x : R) :
  Rabs x <= 1 →
  Rabs (fmul x 32767) <= 32767 ∧
  astype_int16 (fmul x 32767) = py_int (fmul x 32767) ∧
  (-32767 ≤ astype_int16 (fmul x 32767) ≤ 32767)%Z.
Proof.
  intros Hx.
  assert (Rabs (fmul x 32767) <= 32767) as Hb.
  { unfold fmul. apply rnd64_abs_le_format; [apply format_32767 |].
    rewrite Rabs_mult, (Rabs_pos_eq 32767) by lra. lra. }
  split; [exact Hb |]. apply astype_int16_bounded, Hb.
Qed.

Lemma length_quantize (a : ndarray) : length (quantize a) = length a.
Proof. unfold quantize, scaled_values. rewrite !length_fmap. reflexivity. Qed.

Lemma lookup_quantize (a : ndarray) (i : nat) :
  quantize a !! i = (λ x, astype_int16 (fmul x 32767)) <$> a !! i.
Proof.
  unfold quantize, scaled_values. rewrite !list_lookup_fmap.
  destruct (a !! i); reflexivity.
Qed.

End Fades.

(** ** What a run returns *)

Section Returns.
Local Open Scope R_scope.

Lemma fade_in_applied_outside (F : Z) (i : nat) (v : R) :
  (F ≤ Z.of_nat i)%Z → fade_in_applied F i v = v.
Proof.
  intros H. unfold fade_in_applied.
  replace (Z.of_nat i <? F)%Z with false by (symmetry; apply Z.ltb_ge; lia).
  reflexivity.
Qed.

Lemma fade_out_applied_outside (N F : Z) (i : nat) (v : R) :
  (Z.of_nat i < N - F)%Z → fade_out_applied N F i v = v.
Proof.
  intros H. unfold fade_out_applied.
  replace (N - F <=? Z.of_nat i)%Z with false by (symmetry; apply Z.leb_gt; lia).
  reflexivity.
Qed.

Lemma final_audio_fits (frequency duration : R) (sample_rate : Z) (fade_duration : R) :
  let N := sample_count duration sample_rate in
  let F := fade_count sample_rate fade_duration in
  (0 ≤ N)%Z → (F ≤ N)%Z →
  ∃ a : ndarray,
    final_audio frequency duration sample_rate fade_duration = Some a ∧
    length a = Z.to_nat N ∧
    ∀ i : nat, (i < Z.to_nat N)%nat →
      a !! i = Some (faded_sample frequency duration N F i).
Proof.
  intros N F HN HF. unfold final_audio. fold N F.
  replace (N <? 0)%Z with false by (symmetry; apply Z.ltb_ge; lia).
  pose proof (length_raw_audio frequency duration N) as Hlen.
  destruct (0 <? F)%Z eqn:H0.
  - apply Z.ltb_lt in H0.
    destruct (faded_audio_fits (raw_audio frequency duration N) F H0)
      as (a & Ha & Hla & Hlook); [lia |].
    exists a. split; [exact Ha |]. split; [congruence |].
    intros i Hi. rewrite (Hlook i _ (lookup_raw_audio _ _ _ _ Hi)).
    rewrite Hlen, Z2Nat.id by lia. reflexivity.
  - apply Z.ltb_ge in H0.
    exists (raw_audio frequency duration N). split; [reflexivity |].
    split; [exact Hlen |].
    intros i Hi. rewrite lookup_raw_audio by exact Hi. unfold faded_sample.
    rewrite fade_in_applied_outside, fade_out_applied_outside by lia. reflexivity.
Qed.

Lemma final_audio_empty (frequency duration : R) (sample_rate : Z) (fade_duration : R) :
  sample_count duration sample_rate = 0%Z →
  fade_count sample_rate fade_duration = 1%Z →
  final_audio frequency duration sample_rate fade_duration = Some [].
Proof.
  intros HN HF. unfold final_audio. rewrite HN, HF. reflexivity.
Qed.

Lemma final_audio_overflow (frequency duration : R) (sample_rate : Z) (fade_duration : R) :
  let N := sample_count duration sample_rate in
  let F := fade_count sample_rate fade_duration in
  (0 ≤ N)%Z → (1 < F)%Z → (N < F)%Z →
  final_audio frequency duration sample_rate fade_duration = None.
Proof.
  intros N F HN HF HNF. unfold final_audio. fold N F.
  replace (N <? 0)%Z with false by (symmetry; apply Z.ltb_ge; lia).
  replace (0 <? F)%Z with true by (symmetry; apply Z.ltb_lt; lia).
  unfold faded_audio. rewrite slice_bounds_head by lia.
  rewrite length_raw_audio, Nat.min_r by lia.
  assert (imul_values (raw_audio frequency duration N) 0 (Z.to_nat N) (fade_in_values F)
          = None) as ->; [| reflexivity].
  unfold imul_values. pose proof (length_fade_in_values F) as Hl.
  rewrite decide_False by lia.
  destruct (fade_in_values F) as [| c [| c' l]]; simpl in Hl; [reflexivity | lia | reflexivity].
Qed.

Lemma final_audio_negative (frequency duration : R) (sample_rate : Z) (fade_duration : R) :
  (sample_count duration sample_rate < 0)%Z →
  final_audio frequency duration sample_rate fade_duration = None.
Proof.
  intros HN. unfold final_audio.
  replace (_ <? 0)%Z with true by (symmetry; apply Z.ltb_lt; lia). reflexivity.
Qed.

(** Whenever the sample count is not negative and the fade count does not
    exceed it, a run from any store returns; [audio] holds the faded sine
    and the buffer its scaled values, truncated. *)
Lemma generate_tone_returns (frequency duration : R) (sample_rate : Z)
    (fade_duration : R) (s : store) :
  let N := sample_count duration sample_rate in
  let F := fade_count sample_rate fade_duration in
  (0 ≤ N)%Z → (F ≤ N)%Z →
  ∃ a : ndarray,
    generate_tone frequency duration sample_rate fade_duration s
    = Ok (quantize a) (s ++ allocated frequency duration sample_rate fade_duration a) ∧
    length a = Z.to_nat N ∧
    ∀ i : nat, (i < Z.to_nat N)%nat →
      a !! i = Some (faded_sample frequency duration N F i) ∧
      quantize a !! i
      = Some (py_int (fmul (faded_sample frequency duration N F i) 32767)).
Proof.
  intros N F HN HF.
  destruct (final_audio_fits frequency duration sample_rate fade_duration HN HF)
    as (a & Ha & Hl & Hlook).
  exists a. rewrite generate_tone_run, Ha. split; [reflexivity |]. split; [exact Hl |].
  intros i Hi. split; [apply Hlook, Hi |].
  rewrite lookup_quantize, (Hlook i Hi). simpl. f_equal.
  apply astype_int16_sample, faded_sample_bounded. lia.
Qed.

(** The counts of a valid specification. *)
Lemma valid_counts (frequency duration : R) (sample_rate : Z) (fade_duration : R) :
  valid_ToneSpec frequency duration sample_rate fade_duration →
  let N := sample_count duration sample_rate in
  let F := fade_count sample_rate fade_duration in
  N = Zfloor (fmul (of_int sample_rate) duration) ∧ (0 ≤ F)%Z ∧ (2 * F ≤ N)%Z.
Proof.
  intros (Hf & Hd & Hsr & Hfd0 & Hfd). cbv zeta. unfold sample_count, fade_count.
  pose proof (of_int_pos sample_rate Hsr) as Hr.
  set (m := of_int sample_rate) in *.
  assert (0 <= fmul m duration) as Hp by (apply fmul_nonneg; lra).
  assert (0 <= fmul m fade_duration) as Hq by (apply fmul_nonneg; lra).
  rewrite !py_int_nonneg by assumption.
  split; [reflexivity |]. split; [apply (Zfloor_lub 0), Hq |].
  apply Zfloor_lub. rewrite mult_IZR.
  pose proof (Zfloor_bound (fmul m fade_duration)) as [Hfl _].
  assert (2 * fmul m fade_duration <= fmul m duration) as Hdouble.
  { unfold fmul. rewrite <- rnd64_double. apply rnd64_mono. nra. }
  lra.
Qed.

End Returns.

(** ** Concrete evaluations *)

Section Evaluations.
Local Open Scope R_scope.

Lemma bpow_pos_num (p : positive) : bpow (Z.pos p) = IZR (2 ^ Z.pos p).
Proof. rewrite <- (positive_nat_Z p). apply bpow_IZR. Qed.

(** A real whose mantissa, scaled by [2^k], lies within one half of the
    53-bit integer [n] rounds to [n / 2^k]. *)
Lemma rnd64_near (x : R) (n k : Z) :
  (2 ^ 52 < Z.abs n < 2 ^ 53)%Z →
  Rabs (x * bpow k - IZR n) < 1 / 2 →
  rnd64 x = IZR n / bpow k.
Proof.
  intros [Hlo Hhi] Hnear.
  unfold Rdiv. rewrite <- bpow_opp.
  replace (- k)%Z with (53 - k - 53)%Z by lia.
  apply rnd64_eval.
  - pose proof (bpow_pos k) as Hk. pose proof (bpow_pos (- k)) as Hk'.
    assert (bpow k * bpow (- k) = 1) as Hinv by (rewrite <- bpow_add, Z.add_opp_diag_r; apply bpow_0).
    assert (Rabs x = Rabs (x * bpow k) * bpow (- k)) as ->.
    { rewrite Rabs_mult, (Rabs_pos_eq (bpow k)) by lra. rewrite Rmult_assoc, Hinv. lra. }
    replace (53 - k - 1)%Z with (52 + - k)%Z by lia.
    replace (53 - k)%Z with (53 + - k)%Z by lia.
    rewrite !bpow_add, bpow_52, bpow_53.
    assert (IZR (2 ^ 52 + 1) <= Rabs (IZR n)) as Hn1.
    { rewrite <- abs_IZR. apply IZR_le. lia. }
    assert (Rabs (IZR n) <= IZR (2 ^ 53 - 1)) as Hn2.
    { rewrite <- abs_IZR. apply IZR_le. lia. }
    rewrite plus_IZR in Hn1. rewrite minus_IZR in Hn2.
    change (IZR (2 ^ 52)) with 4503599627370496 in Hn1.
    change (IZR (2 ^ 53)) with 9007199254740992 in Hn2.
    assert (Rabs (IZR n) - 1 / 2 < Rabs (x * bpow k) < Rabs (IZR n) + 1 / 2) as [H1 H2].
    { pose proof (Rabs_triang_inv (x * bpow k) (IZR n)) as Ha.
      pose proof (Rabs_triang_inv (IZR n) (x * bpow k)) as Hb.
      rewrite (Rabs_minus_sym (IZR n)) in Hb. lra. }
    split; [apply Rmult_le_compat_r | apply Rmult_lt_compat_r]; lra.
  - replace (53 - (53 - k))%Z with k by lia.
    rewrite Rabs_minus_sym. exact Hnear.
Qed.

(** The literals [0.2] and [0.01] of the source. *)
Lemma DURATION_value : DURATION = 3602879701896397 / 18014398509481984.
Proof.
  unfold DURATION. rewrite (rnd64_near _ 7205759403792794 55).
  - rewrite bpow_pos_num. simpl. lra.
  - lia.
  - rewrite bpow_pos_num. simpl. apply Rabs_def1; lra.
Qed.

Lemma FADE_DURATION_value : FADE_DURATION = 5764607523034235 / 576460752303423488.
Proof.
  unfold FADE_DURATION. rewrite (rnd64_near _ 5764607523034235 59).
  - rewrite bpow_pos_num. simpl. lra.
  - lia.
  - rewrite bpow_pos_num. simpl. apply Rabs_def1; lra.
Qed.

(** A value halfway between two doubles goes to the one with the even
    mantissa. *)
Lemma rnd64_eval_tie (x : R) (e n : Z) :
  bpow (e - 1) <= Rabs x < bpow e →
  Rabs (IZR n - x * bpow (53 - e)) = 1 / 2 → Z.even n = true →
  rnd64 x = IZR n * bpow (e - 53).
Proof.
  intros Hmag Hn Heven. pose proof (mag_unique x e Hmag) as He.
  assert (x <> 0) as Hx.
  { intros ->. rewrite Rabs_R0 in Hmag. pose proof (bpow_pos (e - 1)). lra. }
  rewrite rnd64_nonzero, He by exact Hx. f_equal. f_equal.
  apply rne_char. right. split; assumption.
Qed.

End Evaluations.
(** ** Without a fade *)

Section NoFade.
Local Open Scope R_scope.

Lemma fade_count_zero (sample_rate : Z) : fade_count sample_rate 0 = 0%Z.
Proof. unfold fade_count. rewrite fmul_0_r. apply py_int_0. Qed.

Lemma faded_sample_no_fade (frequency duration : R) (N : Z) (i : nat) :
  (Z.of_nat i < N)%Z →
  faded_sample frequency duration N 0 i = raw_sample frequency duration N i.
Proof.
  intros Hi. unfold faded_sample.
  rewrite fade_in_applied_outside, fade_out_applied_outside by lia. reflexivity.
Qed.

Lemma format_raw_sample (frequency duration : R) (N : Z) (i : nat) :
  format (raw_sample frequency duration N i).
Proof. apply format_fsin. Qed.

Lemma format_fade_in_applied (F : Z) (i : nat) (v : R) :
  format v → format (fade_in_applied F i v).
Proof.
  intros Hv. unfold fade_in_applied.
  destruct (Z.of_nat i <? F)%Z; [apply format_fmul | exact Hv].
Qed.

End NoFade.

(** ** The fade attenuates *)

Section Attenuates.
Local Open Scope R_scope.

Lemma fade_in_applied_attenuates (F : Z) (i : nat) (v : R) :
  format v →
  Rabs (fade_in_applied F i v) <= Rabs v ∧ 0 <= fade_in_applied F i v * v.
Proof.
  intros Hv. unfold fade_in_applied.
  destruct (Z.of_nat i <? F)%Z eqn:Hi.
  - apply Z.ltb_lt in Hi. apply fmul_attenuates; [exact Hv | apply ramp_up_bounds, Hi].
  - split; [lra | nra].
Qed.

Lemma fade_out_applied_attenuates (N F : Z) (i : nat) (v : R) :
  (Z.of_nat i < N)%Z → format v →
  Rabs (fade_out_applied N F i v) <= Rabs v ∧ 0 <= fade_out_applied N F i v * v.
Proof.
  intros HiN Hv. unfold fade_out_applied.
  destruct (N - F <=? Z.of_nat i)%Z eqn:Hi.
  - apply Z.leb_le in Hi.
    apply fmul_attenuates; [exact Hv | apply ramp_down_bounds, fade_out_index; assumption].
  - split; [lra | nra].
Qed.

(** After both fades a sample has the sign of the raw sine and at most
    its magnitude. *)
Lemma faded_sample_attenuates (frequency duration : R) (N F : Z) (i : nat) :
  (Z.of_nat i < N)%Z →
  Rabs (faded_sample frequency duration N F i)
  <= Rabs (raw_sample frequency duration N i) ∧
  0 <= faded_sample frequency duration N F i * raw_sample frequency duration N i.
Proof.
  intros Hi. unfold faded_sample.
  pose proof (format_raw_sample frequency duration N i) as Hr.
  set (x := raw_sample frequency duration N i) in *.
  destruct (fade_in_applied_attenuates F i x Hr) as [H1 H1s].
  pose proof (format_fade_in_applied F i x Hr) as Hv.
  set (v := fade_in_applied F i x) in *.
  destruct (fade_out_applied_attenuates N F i v Hi Hv) as [H2 H2s].
  set (w := fade_out_applied N F i v) in *.
  split; [lra |].
  destruct (Rle_lt_dec 0 x) as [Hx | Hx].
  - assert (0 <= v) as Hv0.
    { destruct (Rle_lt_dec 0 v) as [? | Hneg]; [assumption |].
      rewrite (Rabs_left v), (Rabs_pos_eq x) in H1 by assumption. nra. }
    assert (0 <= w); [| nra].
    destruct (Rle_lt_dec 0 w) as [? | Hneg]; [assumption |].
    rewrite (Rabs_left w), (Rabs_pos_eq v) in H2 by assumption. nra.
  - assert (v <= 0) as Hv0.
    { destruct (Rle_lt_dec v 0) as [? | Hpos]; [assumption |].
      rewrite (Rabs_pos_eq v), (Rabs_left x) in H1 by lra. nra. }
    assert (w <= 0); [| nra].
    destruct (Rle_lt_dec w 0) as [? | Hpos]; [assumption |].
    destruct (Req_dec_T v 0) as [Hz | Hnz].
    + rewrite Hz, Rabs_R0, (Rabs_pos_eq w) in H2 by lra. lra.
    + rewrite (Rabs_pos_eq w), (Rabs_left v) in H2 by lra. nra.
Qed.

(** Scaling and truncation keep the order of magnitudes and the sign. *)
Lemma quantized_attenuates (x y : R) :
  Rabs x <= Rabs y → 0 <= x * y →
  (Z.abs (py_int (fmul x 32767)) ≤ Z.abs (py_int (fmul y 32767)))%Z ∧
  (0 ≤ py_int (fmul x 32767) * py_int (fmul y 32767))%Z.
Proof.
  intros Habs Hsign. split.
  - apply py_int_abs_le. unfold fmul. apply rnd64_abs_le.
    rewrite !Rabs_mult. apply Rmult_le_compat_r; [apply Rabs_pos | exact Habs].
  - destruct (Rle_lt_dec 0 y) as [Hy | Hy].
    + assert (0 <= x) as Hx.
      { destruct (Rle_lt_dec 0 x) as [? | Hneg]; [assumption |].
        destruct (Req_dec_T y 0) as [Hz | Hnz]; [| nra].
        rewrite Hz, Rabs_R0, (Rabs_left x) in Habs by lra. lra. }
      destruct (py_int_sign (fmul x 32767)) as [Hp _].
      destruct (py_int_sign (fmul y 32767)) as [Hq _].
      specialize (Hp ltac:(apply fmul_nonneg; lra)).
      specialize (Hq ltac:(apply fmul_nonneg; lra)). nia.
    + assert (x <= 0) as Hx by nra.
      destruct (py_int_sign (fmul x 32767)) as [_ Hp].
      destruct (py_int_sign (fmul y 32767)) as [_ Hq].
      assert (fmul x 32767 <= 0) as Hx' by (apply rnd64_neg; nra).
      assert (fmul y 32767 <= 0) as Hy' by (apply rnd64_neg; nra).
      specialize (Hp Hx'). specialize (Hq Hy'). nia.
Qed.

End Attenuates.

(** ** Strict order after rounding *)

Section StrictOrder.
Local Open Scope R_scope.

Lemma ulp_53 : bpow (- 53) * 9007199254740992 = 1.
Proof.
  change 9007199254740992 with (IZR (2 ^ 53)).
  rewrite <- bpow_53, <- bpow_add. apply bpow_0.
Qed.

Lemma rnd64_pos_strict (x : R) : 0 < x → 0 < rnd64 x.
Proof.
  intros Hx. destruct (rnd64_pos_bounds x Hx) as [Hl _].
  pose proof (bpow_pos (mag x - 1)). lra.
Qed.

(** Two positive reals further apart than two roundings can bridge round
    to different doubles. *)
Lemma rnd64_strict (x y : R) :
  0 <= x → (1 + bpow (- 53)) * x < (1 - bpow (- 53)) * y → rnd64 x < rnd64 y.
Proof.
  intros Hx Hlt. pose proof (bpow_pos (- 53)) as Hu. pose proof ulp_53 as Hu53.
  assert (0 < y) as Hy by nra.
  pose proof (rnd64_err x) as Hex. pose proof (rnd64_err y) as Hey.
  rewrite (Rabs_pos_eq x) in Hex by exact Hx.
  rewrite (Rabs_pos_eq y) in Hey by lra.
  apply Rabs_le_bounds in Hex. apply Rabs_le_bounds in Hey. lra.
Qed.

(** The rounded reciprocal of a count. *)
Lemma reciprocal_bounds (m : Z) :
  (0 < m < 2 ^ 53)%Z →
  let r := fdiv 1 (of_int m) in
  0 < r ∧ r * IZR m <= 1 + bpow (- 53) ∧ 1 - bpow (- 53) <= r * IZR m.
Proof.
  intros Hm r. subst r. rewrite of_int_small by lia.
  assert (0 < IZR m) as Hm0 by (apply IZR_lt; lia).
  assert (0 < 1 / IZR m) as Hq by (apply Rdiv_lt_0_compat; lra).
  assert (1 / IZR m * IZR m = 1) as Hqm by (field; lra).
  pose proof (rnd64_err (1 / IZR m)) as He. fold (fdiv 1 (IZR m)) in He.
  rewrite (Rabs_pos_eq (1 / IZR m)) in He by lra.
  apply Rabs_le_bounds in He. pose proof (bpow_pos (- 53)) as Hu.
  split; [apply rnd64_pos_strict, Hq |].
  set (r := fdiv 1 (IZR m)) in *. set (q := 1 / IZR m) in *.
  split; nra.
Qed.

(** Consecutive multiples of a positive double round to different
    doubles, as long as the multiplier is below 2^52. *)
Lemma multiples_increase (r : R) (j k : Z) :
  0 < r → (0 ≤ j < k)%Z → (k < 2 ^ 52)%Z →
  fmul (of_int j) r < fmul (of_int k) r.
Proof.
  intros Hr Hjk Hk. rewrite !of_int_small by lia. unfold fmul.
  assert (0 <= IZR j) as Hj0 by (apply IZR_le; lia).
  assert (IZR j + 1 <= IZR k) as Hstep by (rewrite <- plus_IZR; apply IZR_le; lia).
  assert (IZR k <= 4503599627370495) as Hku.
  { apply (IZR_le k 4503599627370495). lia. }
  pose proof (bpow_pos (- 53)) as Hu. pose proof ulp_53 as Hu53.
  apply rnd64_strict; [nra |].
  assert ((1 + bpow (- 53)) * IZR j < (1 - bpow (- 53)) * IZR k) as Hlt by nra.
  nra.
Qed.

End StrictOrder.

(** ** The ramps increase and decrease strictly *)

Section StrictRamps.
Local Open Scope R_scope.

Lemma format_pred_one : format (1 - bpow (- 53)).
Proof.
  exists (2 ^ 53 - 1)%Z, (- 53)%Z. split; [| lia].
  rewrite minus_IZR. change (IZR (2 ^ 53)) with 9007199254740992.
  pose proof ulp_53. lra.
Qed.

(** Before its last point the rising ramp stays below 1. *)
Lemma ramp_below_one (F : Z) (j : nat) :
  (1 < F ≤ 2 ^ 52)%Z → (Z.of_nat j < F - 1)%Z →
  0 <= fmul (of_int (Z.of_nat j)) (fdiv 1 (of_int (F - 1))) <= 1 - bpow (- 53).
Proof.
  intros HF Hj.
  destruct (reciprocal_bounds (F - 1) ltac:(lia)) as (Hr0 & Hhi & Hlo).
  set (r := fdiv 1 (of_int (F - 1))) in *.
  rewrite of_int_small by lia.
  assert (0 <= IZR (Z.of_nat j)) as Hj0 by (apply IZR_le; lia).
  assert (IZR (Z.of_nat j) + 1 <= IZR (F - 1)) as Hj1.
  { rewrite <- plus_IZR. apply IZR_le. lia. }
  assert (IZR (F - 1) <= 4503599627370495) as Hm.
  { apply (IZR_le (F - 1) 4503599627370495). lia. }
  pose proof (bpow_pos (- 53)) as Hu. pose proof ulp_53 as Hu53.
  split; [apply fmul_nonneg; lra |].
  unfold fmul. apply rnd64_le_format; [apply format_pred_one |].
  assert (2 * bpow (- 53) <= r) as Hr2.
  { destruct (Rle_lt_dec (2 * bpow (- 53)) r) as [? | Hlt]; [assumption |].
    assert (r * IZR (F - 1) <= r * 4503599627370495) by (apply Rmult_le_compat_l; lra).
    assert (r * 4503599627370495 < 2 * bpow (- 53) * 4503599627370495)
      by (apply Rmult_lt_compat_r; lra).
    lra. }
  assert (IZR (Z.of_nat j) * r <= (IZR (F - 1) - 1) * r)
    by (apply Rmult_le_compat_r; lra).
  lra.
Qed.

Lemma ramp_up_increases (F : Z) (j k : nat) :
  (1 < F ≤ 2 ^ 52)%Z → (j < k)%nat → (Z.of_nat k < F)%Z →
  ramp_up F j < ramp_up F k.
Proof.
  intros HF Hjk Hk. unfold ramp_up.
  replace (F =? 1)%Z with false by (symmetry; apply Z.eqb_neq; lia).
  replace (Z.of_nat j =? F - 1)%Z with false by (symmetry; apply Z.eqb_neq; lia).
  destruct (Z.of_nat k =? F - 1)%Z eqn:Hlast.
  - pose proof (ramp_below_one F j HF ltac:(lia)) as [_ Hb].
    pose proof (bpow_pos (- 53)). lra.
  - apply Z.eqb_neq in Hlast.
    destruct (reciprocal_bounds (F - 1) ltac:(lia)) as (Hr0 & _).
    apply multiples_increase; [exact Hr0 | lia | lia].
Qed.

Lemma ramp_down_decreases (F : Z) (j k : nat) :
  (1 < F ≤ 2 ^ 50)%Z → (j < k)%nat → (Z.of_nat k < F)%Z →
  ramp_down F k < ramp_down F j.
Proof.
  intros HF Hjk Hk. unfold ramp_down.
  replace (F =? 1)%Z with false by (symmetry; apply Z.eqb_neq; lia).
  replace (Z.of_nat j =? F - 1)%Z with false by (symmetry; apply Z.eqb_neq; lia).
  pose proof (bpow_pos (- 53)) as Hu. pose proof ulp_53 as Hu53.
  pose proof (ramp_below_one F j ltac:(lia) ltac:(lia)) as [Hpj0 Hpj1].
  rewrite fdiv_m1, !fmul_opp_r. unfold fadd.
  set (pj := fmul (of_int (Z.of_nat j)) (fdiv 1 (of_int (F - 1)))) in *.
  destruct (Z.of_nat k =? F - 1)%Z eqn:Hlast.
  { apply rnd64_pos_strict. lra. }
  apply Z.eqb_neq in Hlast.
  pose proof (ramp_below_one F k ltac:(lia) ltac:(lia)) as [Hpk0 Hpk1].
  set (pk := fmul (of_int (Z.of_nat k)) (fdiv 1 (of_int (F - 1)))) in *.
  apply rnd64_strict; [lra |].
  assert (2 * bpow (- 53) < pk - pj) as Hgap; [| nra].
  destruct (reciprocal_bounds (F - 1) ltac:(lia)) as (Hr0 & Hhi & Hlo).
  subst pj pk. set (r := fdiv 1 (of_int (F - 1))) in *.
  rewrite (of_int_small (Z.of_nat j)), (of_int_small (Z.of_nat k)) by lia. unfold fmul.
  assert (0 <= IZR (Z.of_nat j)) as Hj0 by (apply IZR_le; lia).
  assert (IZR (Z.of_nat j) + 1 <= IZR (Z.of_nat k)) as Hstep.
  { rewrite <- plus_IZR. apply IZR_le. lia. }
  assert (IZR (Z.of_nat k) <= IZR (F - 1)) as HkM by (apply IZR_le; lia).
  assert (IZR (F - 1) <= 1125899906842624) as HM.
  { apply (IZR_le (F - 1) 1125899906842624). lia. }
  pose proof (rnd64_err (IZR (Z.of_nat j) * r)) as Hej.
  pose proof (rnd64_err (IZR (Z.of_nat k) * r)) as Hek.
  rewrite (Rabs_pos_eq (IZR (Z.of_nat j) * r)) in Hej by (apply Rmult_le_pos; lra).
  rewrite (Rabs_pos_eq (IZR (Z.of_nat k) * r)) in Hek by (apply Rmult_le_pos; lra).
  apply Rabs_le_bounds in Hej. apply Rabs_le_bounds in Hek.
  set (a := IZR (Z.of_nat j) * r) in *. set (b := IZR (Z.of_nat k) * r) in *.
  assert (a + r <= b) as Hab.
  { unfold a, b. replace (IZR (Z.of_nat j) * r + r) with ((IZR (Z.of_nat j) + 1) * r) by ring.
    apply Rmult_le_compat_r; lra. }
  assert (b <= IZR (F - 1) * r) as HbM by (apply Rmult_le_compat_r; lra).
  assert (0 <= a) as Ha0 by (apply Rmult_le_pos; lra).
  assert (8 * bpow (- 53) * (1 - bpow (- 53)) <= r) as Hrlow.
  { assert (r * IZR (F - 1) <= r * 1125899906842624)
      by (apply Rmult_le_compat_l; lra).
    nra. }
  assert (bpow (- 53) * (a + b) <= r / 4 + bpow (- 53) * r) as Hsmall.
  { assert (a + b <= 2 * (IZR (F - 1) * r)) by lra.
    assert (bpow (- 53) * (a + b) <= bpow (- 53) * (2 * (IZR (F - 1) * r)))
      by (apply Rmult_le_compat_l; lra).
    assert (bpow (- 53) * IZR (F - 1) <= bpow (- 53) * 1125899906842624)
      by (apply Rmult_le_compat_l; lra).
    nra. }
  assert (bpow (- 53) <= 1 / 8) as Hu8 by lra.
  assert (bpow (- 53) * r <= 1 / 8 * r) as Hur by (apply Rmult_le_compat_r; lra).
  assert (bpow (- 53) * bpow (- 53) <= 1 / 8 * bpow (- 53)) as Huu
    by (apply Rmult_le_compat_r; lra).
  lra.
Qed.

End StrictRamps.

(** * Properties of [generate_tone] *)

(** ** A quarter period at two samples per second

    The tone of 1/4 Hz lasting one second at two samples per second has
    the samples [sin 0] and [sin (pi64 / 4)]; it serves as an example
    below.  The sine is enclosed by its Taylor polynomials. *)

Section QuarterPeriod.
Local Open Scope R_scope.

Lemma rnd64_is (x y : R) : format y → x = y → rnd64 x = y.
Proof. intros Hy ->. apply rnd64_fix, Hy. Qed.

(** Counts from products that are doubles. *)
Lemma count_eval (sr : Z) (d y : R) (z : Z) :
  (Z.abs sr < 2 ^ 53)%Z → format y → IZR sr * d = y → py_int y = z →
  py_int (fmul (of_int sr) d) = z.
Proof.
  intros Hsr Hy Hp Hz. rewrite of_int_small by exact Hsr.
  unfold fmul. rewrite (rnd64_is _ y Hy Hp). exact Hz.
Qed.







End QuarterPeriod.

(** ** The built-in tones

    [main] calls [generate_tone] with 0.2 s at 44100 Hz and a fade of
    0.01 s: 8820 samples and ramps of 441 points. *)

Section BuiltIn.
Local Open Scope R_scope.

Lemma sample_count_main : sample_count DURATION SAMPLE_RATE = 8820%Z.
Proof.
  unfold sample_count, SAMPLE_RATE. rewrite DURATION_value, of_int_small by lia.
  unfold fmul. rewrite (rnd64_near _ 4848846278492160 39).
  - rewrite bpow_pos_num. simpl. apply py_int_eq. lra.
  - lia.
  - rewrite bpow_pos_num. simpl. apply Rabs_def1; lra.
Qed.

Lemma fade_count_main : fade_count SAMPLE_RATE FADE_DURATION = 441%Z.
Proof.
  unfold fade_count, SAMPLE_RATE. rewrite FADE_DURATION_value, of_int_small by lia.
  unfold fmul. rewrite (rnd64_near _ 7758154045587456 44).
  - rewrite bpow_pos_num. simpl. apply py_int_eq. lra.
  - lia.
  - rewrite bpow_pos_num. simpl. apply Rabs_def1; lra.
Qed.

Lemma valid_main (frequency : R) :
  0 < frequency → valid_ToneSpec frequency DURATION SAMPLE_RATE FADE_DURATION.
Proof.
  intros Hf. unfold valid_ToneSpec, SAMPLE_RATE.
  rewrite DURATION_value, FADE_DURATION_value. repeat split; lra || lia.
Qed.

End BuiltIn.

(** ** Counts and rounding *)

Section RoundedCounts.
Local Open Scope R_scope.

(** The product [sample_rate * duration] is a double product.  Its floor
    is not always the floor of the exact product of the same numbers: at
    10 Hz the literal [0.3], a double just below 3/10, gives the double
    product 3.0 and hence three samples, while the exact product lies
    below 3. *)
Lemma sample_count_rounds_first :
  sample_count (rnd64 (3 / 10)) 10 = 3%Z ∧ Zfloor (IZR 10 * rnd64 (3 / 10)) = 2%Z.
Proof.
  assert (rnd64 (3 / 10) = 5404319552844595 / 18014398509481984) as ->.
  { rewrite (rnd64_near _ 5404319552844595 54).
    - rewrite bpow_pos_num. simpl. lra.
    - lia.
    - rewrite bpow_pos_num. simpl. apply Rabs_def1; lra. }
  split.
  - unfold sample_count. rewrite of_int_small by lia.
    unfold fmul. rewrite (rnd64_near _ 6755399441055744 51).
    + rewrite bpow_pos_num. simpl. apply py_int_eq. lra.
    + lia.
    + rewrite bpow_pos_num. simpl. apply Rabs_def1; lra.
  - apply Zfloor_eq. simpl. lra.
Qed.

(** The counts follow the rounded products, also where that decides
    between a buffer and an exception: at 5 Hz the literals [0.4] and
    [0.6] give the double products 2.0 and 3.0, hence two samples and
    three-point ramps, and the call raises, although the exact product
    [5 * 0.6] of the same doubles lies below 3. *)
Lemma fade_count_rounds_first :
  sample_count (rnd64 (4 / 10)) 5 = 2%Z ∧
  fade_count 5 (rnd64 (6 / 10)) = 3%Z ∧
  Zfloor (IZR 5 * rnd64 (6 / 10)) = 2%Z ∧
  generate_tone 1 (rnd64 (4 / 10)) 5 (rnd64 (6 / 10)) [] = Raise ValueError.
Proof.
  assert (rnd64 (4 / 10) = 3602879701896397 / 9007199254740992) as H4.
  { rewrite (rnd64_near _ 7205759403792794 54).
    - rewrite bpow_pos_num. simpl. lra.
    - lia.
    - rewrite bpow_pos_num. simpl. apply Rabs_def1; lra. }
  assert (rnd64 (6 / 10) = 5404319552844595 / 9007199254740992) as H6.
  { rewrite (rnd64_near _ 5404319552844595 53).
    - rewrite bpow_pos_num. simpl. lra.
    - lia.
    - rewrite bpow_pos_num. simpl. apply Rabs_def1; lra. }
  assert (sample_count (rnd64 (4 / 10)) 5 = 2%Z) as HN.
  { unfold sample_count. rewrite H4, of_int_small by lia. unfold fmul.
    rewrite (rnd64_eval _ 2 4503599627370496).
    - change (2 - 53)%Z with (Z.opp 51). rewrite bpow_opp, bpow_pos_num.
      simpl. apply py_int_eq. lra.
    - change (2 - 1)%Z with 1%Z. rewrite bpow_1, (bpow_pos_num 2). simpl.
      rewrite Rabs_pos_eq by lra. lra.
    - change (53 - 2)%Z with 51%Z. rewrite bpow_pos_num. simpl.
      apply Rabs_def1; lra. }
  assert (fade_count 5 (rnd64 (6 / 10)) = 3%Z) as HF.
  { unfold fade_count. rewrite H6, of_int_small by lia. unfold fmul.
    rewrite (rnd64_near _ 6755399441055744 51).
    - rewrite bpow_pos_num. simpl. apply py_int_eq. lra.
    - lia.
    - rewrite bpow_pos_num. simpl. apply Rabs_def1; lra. }
  split; [exact HN |]. split; [exact HF |]. split.
  - rewrite H6. apply Zfloor_eq. simpl. lra.
  - rewrite generate_tone_run, final_audio_overflow; [reflexivity | | |];
      rewrite ?HN, ?HF; lia.
Qed.

End RoundedCounts.

(** ** Quantization (C1) *)

Section Quantization.
Local Open Scope R_scope.




End Quantization.

(** ** Failure (C2) *)

Section Failure.
Local Open Scope R_scope.




End Failure.

(** ** The fade ramps (C3) *)

Section Ramps.
Local Open Scope R_scope.



Lemma ramp_up_ends (F : Z) :
  (1 < F)%Z → ramp_up F 0 = 0 ∧ ramp_up F (Z.to_nat (F - 1)) = 1.
Proof.
  intros HF. unfold ramp_up.
  replace (F =? 1)%Z with false by (symmetry; apply Z.eqb_neq; lia).
  rewrite Z2Nat.id, Z.eqb_refl by lia.
  replace (Z.of_nat 0 =? F - 1)%Z with false by (symmetry; apply Z.eqb_neq; lia).
  split; [| reflexivity]. change (Z.of_nat 0) with 0%Z. rewrite of_int_0. apply fmul_0_l.
Qed.

Lemma ramp_down_ends (F : Z) :
  (1 < F)%Z → ramp_down F 0 = 1 ∧ ramp_down F (Z.to_nat (F - 1)) = 0.
Proof.
  intros HF. unfold ramp_down.
  replace (F =? 1)%Z with false by (symmetry; apply Z.eqb_neq; lia).
  rewrite Z2Nat.id, Z.eqb_refl by lia.
  replace (Z.of_nat 0 =? F - 1)%Z with false by (symmetry; apply Z.eqb_neq; lia).
  split; [| reflexivity]. change (Z.of_nat 0) with 0%Z. rewrite of_int_0, fmul_0_l.
  unfold fadd. rewrite Rplus_0_l. apply rnd64_1.
Qed.


(** The sixth point of an eight-point rising ramp.  The double nearest to
    1/7 lies below 1/7; five times it falls exactly between two doubles
    and goes to the one with the even mantissa, below 5/7.  A full-scale
    amplitude at that point is therefore emitted as 23404, whereas
    5/7 * 32767 is 23405. *)
Lemma ramp_up_8_5 : ramp_up 8 5 = 6433713753386422 / 9007199254740992.
Proof.
  unfold ramp_up. change (8 =? 1)%Z with false. change (Z.of_nat 5 =? 8 - 1)%Z with false.
  cbv iota. change (Z.of_nat 5) with 5%Z. change (8 - 1)%Z with 7%Z.
  rewrite !of_int_small by lia. unfold fdiv.
  rewrite (rnd64_near (1 / 7) 5146971002709138 55);
    [| lia | rewrite bpow_pos_num; simpl; apply Rabs_def1; lra].
  rewrite bpow_pos_num. simpl (IZR (2 ^ 55)). unfold fmul.
  rewrite (rnd64_eval_tie _ 0 6433713753386422).
  - change (0 - 53)%Z with (Z.opp 53). rewrite bpow_opp, bpow_pos_num. simpl. lra.
  - change (0 - 1)%Z with (Z.opp 1). rewrite bpow_opp, bpow_1, bpow_0.
    rewrite Rabs_pos_eq by lra. lra.
  - change (53 - 0)%Z with 53%Z. rewrite bpow_pos_num. simpl.
    rewrite Rabs_left by lra. lra.
  - reflexivity.
Qed.

Lemma full_scale_at_ramp_up_8_5 :
  py_int (fmul (fmul 1 (ramp_up 8 5)) 32767) = 23404%Z ∧
  py_int (INR 5 / IZR (8 - 1) * 32767) = 23405%Z.
Proof.
  split.
  - rewrite ramp_up_8_5. unfold fmul.
    rewrite (rnd64_is (1 * _) (6433713753386422 / 9007199254740992))
      by (exact (format_dyadic 6433713753386422 53 ltac:(lia)) || lra).
    rewrite (rnd64_near _ 6433517412024319 38);
      [| lia | rewrite bpow_pos_num; simpl; apply Rabs_def1; lra].
    rewrite bpow_pos_num. simpl (IZR (2 ^ 38)). apply py_int_between; lra.
  - apply py_int_eq. change (IZR (8 - 1)) with 7.
    replace (INR 5) with 5 by (simpl; lra). lra.
Qed.



End Ramps.

(** ** Time points and raw amplitudes (C4) *)

Section TimePoints.
Local Open Scope R_scope.






End TimePoints.

(** ** Buffer length (C5) *)

Section Length.
Local Open Scope R_scope.



End Length.

(** ** Range of the samples (C6) *)

Section Range.
Local Open Scope R_scope.

(** C6.  For every valid specification the run returns and every sample
    of the buffer lies in [-32767, 32767]. *)
Theorem C6_sample_range (frequency duration : R) (sample_rate : Z)
    (fade_duration : R) (s : store) :
  valid_ToneSpec frequency duration sample_rate fade_duration →
  ∃ (buf : list Z) (s' : store),
    generate_tone frequency duration sample_rate fade_duration s = Ok buf s' ∧
    ∀ (i : nat) (z : Z), buf !! i = Some z → (-32767 ≤ z ≤ 32767)%Z.
Proof.
  intros Hvalid.
  destruct (valid_counts _ _ _ _ Hvalid) as (HN & HF0 & HF).
  assert (0 ≤ sample_count duration sample_rate)%Z as HN0 by lia.
  destruct (generate_tone_returns frequency duration sample_rate fade_duration s)
    as (a & Hrun & Hlen & Hlook); [lia | lia |].
  eexists (quantize a), _. split; [exact Hrun |].
  intros i z Hz.
  assert (i < Z.to_nat (sample_count duration sample_rate))%nat as Hi.
  { apply lookup_lt_Some in Hz. rewrite length_quantize in Hz. lia. }
  destruct (Hlook i Hi) as [Ha _].
  rewrite lookup_quantize, Ha in Hz. simpl in Hz. inversion Hz; subst z.
  apply astype_int16_sample, faded_sample_bounded. lia.
Qed.

Lemma C6_sample_range_witness :
  valid_ToneSpec 300 DURATION SAMPLE_RATE FADE_DURATION ∧
  ∃ (buf : list Z) (s' : store),
    generate_tone 300 DURATION SAMPLE_RATE FADE_DURATION [] = Ok buf s' ∧
    ∀ (i : nat) (z : Z), buf !! i = Some z → (-32767 ≤ z ≤ 32767)%Z.
Proof.
  assert (valid_ToneSpec 300 DURATION SAMPLE_RATE FADE_DURATION) as Hvalid
    by (apply valid_main; lra).
  split; [exact Hvalid |].
  exact (C6_sample_range 300 DURATION SAMPLE_RATE FADE_DURATION [] Hvalid).
Defined.

End Range.

(** ** Determinism and absence of side effects (C7) *)

Section Purity.

(** C7.  What a call returns (buffer or exception) depends on the four
    arguments only, not on the arrays that exist when it is made: two
    calls with the same arguments return the same buffer.  A call changes
    no array that existed before it; it only allocates.  (Stated for all
    arguments, valid or not.) *)
Theorem C7_deterministic_pure (frequency duration : R) (sample_rate : Z)
    (fade_duration : R) (s1 s2 : store) :
  result (generate_tone frequency duration sample_rate fade_duration s1)
  = result (generate_tone frequency duration sample_rate fade_duration s2) ∧
  is_Some (result (generate_tone frequency duration sample_rate fade_duration s1)) ∧
  (∀ (buf : list Z) (s' : store),
     generate_tone frequency duration sample_rate fade_duration s1 = Ok buf s' →
     s1 `prefix_of` s' ∧
     ∀ (r : ref) (x : ndarray), s1 !! r = Some x → s' !! r = Some x) ∧
  (∀ (buf1 buf2 : list Z) (s1' s2' : store),
     generate_tone frequency duration sample_rate fade_duration s1 = Ok buf1 s1' →
     generate_tone frequency duration sample_rate fade_duration s1' = Ok buf2 s2' →
     buf1 = buf2).
Proof.
  rewrite !generate_tone_run.
  destruct (final_audio frequency duration sample_rate fade_duration) as [a |] eqn:Ha.
  - split; [reflexivity |]. split; [eexists; reflexivity |]. split.
    + intros buf s' Hrun. inversion Hrun; subst buf s'. split.
      * eexists; reflexivity.
      * intros r x Hx. apply lookup_app_l_Some. exact Hx.
    + intros buf1 buf2 s1' s2' H1 H2.
      rewrite generate_tone_run, Ha in H2. congruence.
  - split; [reflexivity |]. split; [eexists; reflexivity |]. split.
    + intros buf s' Hrun. discriminate.
    + intros buf1 buf2 s1' s2' H1. discriminate.
Qed.

End Purity.

(** ** The fade only attenuates (C8) *)

Section Attenuation.
Local Open Scope R_scope.

(** C8.  For every valid specification with a fade (F > 0), both the call
    and the call with the fade duration set to zero return, and at every
    index of the fade-in window the magnitude of the faded sample is at
    most that of the unfaded one. *)
Theorem C8_fade_in_attenuates (frequency duration : R) (sample_rate : Z)
    (fade_duration : R) (s : store) :
  valid_ToneSpec frequency duration sample_rate fade_duration →
  (0 < fade_count sample_rate fade_duration)%Z →
  ∃ (faded unfaded : list Z) (s1 s0 : store),
    generate_tone frequency duration sample_rate fade_duration s = Ok faded s1 ∧
    generate_tone frequency duration sample_rate 0 s = Ok unfaded s0 ∧
    ∀ i : nat, (Z.of_nat i < fade_count sample_rate fade_duration)%Z →
      ∃ z z0 : Z,
        faded !! i = Some z ∧ unfaded !! i = Some z0 ∧ (Z.abs z ≤ Z.abs z0)%Z.
Proof.
  intros Hvalid HF.
  destruct (valid_counts _ _ _ _ Hvalid) as (HN & HF0 & HFN).
  set (N := sample_count duration sample_rate) in *.
  set (F := fade_count sample_rate fade_duration) in *.
  destruct (generate_tone_returns frequency duration sample_rate fade_duration s)
    as (a & Hrun & Hlen & Hlook); [fold N; lia | fold N F; lia |].
  destruct (generate_tone_returns frequency duration sample_rate 0 s)
    as (a0 & Hrun0 & Hlen0 & Hlook0);
    [fold N; lia | rewrite fade_count_zero; fold N; lia |].
  fold N F in Hlook. fold N in Hlook0. rewrite fade_count_zero in Hlook0.
  eexists (quantize a), (quantize a0), _, _.
  split; [exact Hrun |]. split; [exact Hrun0 |].
  intros i Hi.
  assert (i < Z.to_nat N)%nat as HiN by lia.
  destruct (Hlook i HiN) as [_ Hb]. destruct (Hlook0 i HiN) as [_ Hb0].
  eexists _, _. split; [exact Hb |]. split; [exact Hb0 |].
  rewrite (faded_sample_no_fade frequency duration N i) by lia.
  destruct (faded_sample_attenuates frequency duration N F i ltac:(lia)) as [Habs Hsign].
  apply quantized_attenuates; assumption.
Qed.

Lemma C8_fade_in_attenuates_witness :
  valid_ToneSpec 300 DURATION SAMPLE_RATE FADE_DURATION ∧
  (0 < fade_count SAMPLE_RATE FADE_DURATION)%Z ∧
  ∃ (faded unfaded : list Z) (s1 s0 : store),
    generate_tone 300 DURATION SAMPLE_RATE FADE_DURATION [] = Ok faded s1 ∧
    generate_tone 300 DURATION SAMPLE_RATE 0 [] = Ok unfaded s0 ∧
    ∀ i : nat, (Z.of_nat i < fade_count SAMPLE_RATE FADE_DURATION)%Z →
      ∃ z z0 : Z,
        faded !! i = Some z ∧ unfaded !! i = Some z0 ∧ (Z.abs z ≤ Z.abs z0)%Z.
Proof.
  assert (valid_ToneSpec 300 DURATION SAMPLE_RATE FADE_DURATION) as Hvalid
    by (apply valid_main; lra).
  assert (0 < fade_count SAMPLE_RATE FADE_DURATION)%Z as Hpos
    by (rewrite fade_count_main; lia).
  split; [exact Hvalid |]. split; [exact Hpos |].
  exact (C8_fade_in_attenuates 300 DURATION SAMPLE_RATE FADE_DURATION [] Hvalid Hpos).
Defined.

End Attenuation.

(** ** Overlapping fades (C9) *)

Section Overlap.
Local Open Scope R_scope.



End Overlap.

(** ** The first sample (C10) *)

Section FirstSample.
Local Open Scope R_scope.

Lemma raw_sample_first (frequency duration : R) (N : Z) :
  raw_sample frequency duration N 0 = 0.
Proof.
  unfold raw_sample, time_point. change (Z.of_nat 0) with 0%Z.
  rewrite of_int_0, fmul_0_l, fmul_0_r. apply fsin_0.
Qed.

Lemma fade_in_applied_0 (F : Z) (i : nat) : fade_in_applied F i 0 = 0.
Proof. unfold fade_in_applied. destruct (_ <? _)%Z; [apply fmul_0_l | reflexivity]. Qed.

Lemma fade_out_applied_0 (N F : Z) (i : nat) : fade_out_applied N F i 0 = 0.
Proof. unfold fade_out_applied. destruct (_ <=? _)%Z; [apply fmul_0_l | reflexivity]. Qed.

(** C10.  For every valid specification with at least one sample, with
    or without a fade, the run returns and the first sample is 0. *)
Theorem C10_first_sample_zero (frequency duration : R) (sample_rate : Z)
    (fade_duration : R) (s : store) :
  valid_ToneSpec frequency duration sample_rate fade_duration →
  (1 ≤ sample_count duration sample_rate)%Z →
  ∃ (buf : list Z) (s' : store),
    generate_tone frequency duration sample_rate fade_duration s = Ok buf s' ∧
    buf !! 0%nat = Some 0%Z.
Proof.
  intros Hvalid HN1.
  destruct (valid_counts _ _ _ _ Hvalid) as (HN & HF0 & HFN).
  destruct (generate_tone_returns frequency duration sample_rate fade_duration s)
    as (a & Hrun & Hlen & Hlook); [lia | lia |].
  eexists (quantize a), _. split; [exact Hrun |].
  destruct (Hlook 0%nat ltac:(lia)) as [_ ->]. f_equal.
  unfold faded_sample.
  rewrite raw_sample_first, fade_in_applied_0, fade_out_applied_0, fmul_0_l.
  apply py_int_0.
Qed.

Lemma C10_first_sample_zero_witness :
  valid_ToneSpec 300 DURATION SAMPLE_RATE FADE_DURATION ∧
  (1 ≤ sample_count DURATION SAMPLE_RATE)%Z ∧
  ∃ (buf : list Z) (s' : store),
    generate_tone 300 DURATION SAMPLE_RATE FADE_DURATION [] = Ok buf s' ∧
    buf !! 0%nat = Some 0%Z.
Proof.
  assert (valid_ToneSpec 300 DURATION SAMPLE_RATE FADE_DURATION) as Hvalid
    by (apply valid_main; lra).
  assert (1 ≤ sample_count DURATION SAMPLE_RATE)%Z as H1
    by (rewrite sample_count_main; lia).
  split; [exact Hvalid |]. split; [exact H1 |].
  exact (C10_first_sample_zero 300 DURATION SAMPLE_RATE FADE_DURATION [] Hvalid H1).
Defined.

End FirstSample.

(** * Further properties of [generate_tone] and of the operations it calls *)

(** ** The buffer of a run that returns *)

Section Buffers.
Local Open Scope R_scope.

(** A run that returns, whatever the arguments: the sample count is not
    negative, [audio] holds the faded sine and the buffer its scaled
    values, truncated. *)
Lemma generate_tone_ok (frequency duration : R) (sample_rate : Z)
    (fade_duration : R) (s s' : store) (buf : list Z) :
  let N := sample_count duration sample_rate in
  let F := fade_count sample_rate fade_duration in
  generate_tone frequency duration sample_rate fade_duration s = Ok buf s' →
  (0 ≤ N)%Z ∧ (F ≤ N ∨ (N = 0 ∧ F = 1))%Z ∧ length buf = Z.to_nat N ∧
  ∀ i : nat, (i < Z.to_nat N)%nat →
    buf !! i = Some (py_int (fmul (faded_sample frequency duration N F i) 32767)).
Proof.
  intros N F Hrun.
  destruct (Z.lt_ge_cases N 0) as [HN | HN].
  { rewrite generate_tone_run, final_audio_negative in Hrun by exact HN. discriminate. }
  split; [exact HN |].
  destruct (Z.le_gt_cases F N) as [HF | HF].
  { destruct (generate_tone_returns frequency duration sample_rate fade_duration s HN HF)
      as (a & Hrun' & Hlen & Hlook).
    rewrite Hrun' in Hrun. inversion Hrun; subst buf s'.
    split; [left; exact HF |]. split; [rewrite length_quantize; exact Hlen |].
    intros i Hi. apply Hlook, Hi. }
  destruct (Z.le_gt_cases F 1) as [H1 | H1].
  - assert (N = 0%Z) as HN0 by lia. assert (F = 1%Z) as HF1 by lia.
    rewrite generate_tone_run, (final_audio_empty _ _ _ _ HN0 HF1) in Hrun.
    inversion Hrun; subst buf s'.
    split; [right; lia |]. split; [rewrite HN0; reflexivity |].
    intros i Hi. lia.
  - rewrite generate_tone_run, final_audio_overflow in Hrun by assumption. discriminate.
Qed.

(** The same call without fade returns as well, the raw sine scaled and
    truncated. *)
Lemma generate_tone_unfaded (frequency duration : R) (sample_rate : Z) (s : store) :
  let N := sample_count duration sample_rate in
  (0 ≤ N)%Z →
  ∃ (unfaded : list Z) (s0 : store),
    generate_tone frequency duration sample_rate 0 s = Ok unfaded s0 ∧
    length unfaded = Z.to_nat N ∧
    ∀ i : nat, (i < Z.to_nat N)%nat →
      unfaded !! i = Some (py_int (fmul (raw_sample frequency duration N i) 32767)).
Proof.
  intros N HN.
  destruct (generate_tone_returns frequency duration sample_rate 0 s)
    as (a & Hrun & Hlen & Hlook); [exact HN | rewrite fade_count_zero; exact HN |].
  fold N in Hlen, Hlook. rewrite fade_count_zero in Hlook.
  eexists (quantize a), _. split; [exact Hrun |].
  split; [rewrite length_quantize; exact Hlen |].
  intros i Hi. destruct (Hlook i Hi) as [_ ->].
  rewrite faded_sample_no_fade by lia. reflexivity.
Qed.

(** X1.  Whenever a call returns (any arguments, overlapping fades
    included), the call without fade returns a buffer of the same length,
    and at every index the faded sample has the sign of the unfaded one
    and at most its magnitude. *)
Theorem fade_attenuates_everywhere (frequency duration : R) (sample_rate : Z)
    (fade_duration : R) (s s1 : store) (faded : list Z) :
  generate_tone frequency duration sample_rate fade_duration s = Ok faded s1 →
  ∃ (unfaded : list Z) (s0 : store),
    generate_tone frequency duration sample_rate 0 s = Ok unfaded s0 ∧
    length faded = length unfaded ∧
    ∀ (i : nat) (z z0 : Z), faded !! i = Some z → unfaded !! i = Some z0 →
      (Z.abs z ≤ Z.abs z0)%Z ∧ (0 ≤ z * z0)%Z.
Proof.
  intros Hrun.
  destruct (generate_tone_ok _ _ _ _ _ _ _ Hrun) as (HN & _ & Hlen & Hlook).
  destruct (generate_tone_unfaded frequency duration sample_rate s HN)
    as (unfaded & s0 & Hrun0 & Hlen0 & Hlook0).
  exists unfaded, s0. split; [exact Hrun0 |]. split; [congruence |].
  intros i z z0 Hz Hz0.
  assert (i < Z.to_nat (sample_count duration sample_rate))%nat as Hi.
  { apply lookup_lt_Some in Hz. lia. }
  rewrite Hlook in Hz by exact Hi. rewrite Hlook0 in Hz0 by exact Hi.
  inversion Hz; inversion Hz0; subst z z0.
  destruct (faded_sample_attenuates frequency duration
              (sample_count duration sample_rate)
              (fade_count sample_rate fade_duration) i ltac:(lia)) as [Habs Hsign].
  apply quantized_attenuates; assumption.
Qed.

Lemma fade_attenuates_everywhere_witness :
  ∃ (faded unfaded : list Z) (s1 s0 : store),
    generate_tone 1 1 4 (3 / 4) [] = Ok faded s1 ∧
    generate_tone 1 1 4 0 [] = Ok unfaded s0 ∧
    length faded = length unfaded.
Proof.
  assert (sample_count 1 4 = 4%Z) as HN.
  { apply (count_eval 4 1 4 4);
      [lia | exact (format_IZR 4 ltac:(lia)) | lra | apply py_int_IZR]. }
  assert (fade_count 4 (3 / 4) = 3%Z) as HF.
  { apply (count_eval 4 (3 / 4) 3 3);
      [lia | exact (format_IZR 3 ltac:(lia)) | lra | apply py_int_IZR]. }
  destruct (generate_tone_returns 1 1 4 (3 / 4) []) as (a & Hrun & _);
    [rewrite HN; lia | rewrite HN, HF; lia |].
  destruct (fade_attenuates_everywhere 1 1 4 (3 / 4) [] _ _ Hrun)
    as (unfaded & s0 & Hrun0 & Hlen & _).
  eexists _, unfaded, _, s0. split; [exact Hrun |]. split; [exact Hrun0 | exact Hlen].
Defined.

End Buffers.

(** ** Where the fade acts and where it does not *)

Section FadeWindows.
Local Open Scope R_scope.

(** X2.  The fade changes nothing between the two windows: whenever the
    call returns, every sample of the buffer at an index from [F] up to
    [N - F] (excluded) equals the sample of the call without fade. *)
Theorem fade_leaves_middle (frequency duration : R) (sample_rate : Z)
    (fade_duration : R) (s s1 : store) (faded : list Z) :
  let N := sample_count duration sample_rate in
  let F := fade_count sample_rate fade_duration in
  generate_tone frequency duration sample_rate fade_duration s = Ok faded s1 →
  ∃ (unfaded : list Z) (s0 : store),
    generate_tone frequency duration sample_rate 0 s = Ok unfaded s0 ∧
    ∀ i : nat, (i < Z.to_nat N)%nat → (F ≤ Z.of_nat i < N - F)%Z →
      is_Some (faded !! i) ∧ faded !! i = unfaded !! i.
Proof.
  intros N F Hrun.
  destruct (generate_tone_ok _ _ _ _ _ _ _ Hrun) as (HN & _ & Hlen & Hlook).
  fold N F in HN, Hlen, Hlook.
  destruct (generate_tone_unfaded frequency duration sample_rate s HN)
    as (unfaded & s0 & Hrun0 & Hlen0 & Hlook0).
  fold N in Hlen0, Hlook0.
  exists unfaded, s0. split; [exact Hrun0 |].
  intros i HiN Hi.
  rewrite Hlook, Hlook0 by exact HiN. split; [eexists; reflexivity |].
  unfold faded_sample.
  rewrite fade_in_applied_outside, fade_out_applied_outside by lia. reflexivity.
Qed.

Lemma fade_leaves_middle_witness :
  ∃ (faded unfaded : list Z) (s1 s0 : store),
    generate_tone 300 DURATION SAMPLE_RATE FADE_DURATION [] = Ok faded s1 ∧
    generate_tone 300 DURATION SAMPLE_RATE 0 [] = Ok unfaded s0 ∧
    is_Some (faded !! 441%nat) ∧ faded !! 441%nat = unfaded !! 441%nat.
Proof.
  pose proof sample_count_main as HN. pose proof fade_count_main as HF.
  destruct (generate_tone_returns 300 DURATION SAMPLE_RATE FADE_DURATION [])
    as (a & Hrun & _); [rewrite HN; lia | rewrite HN, HF; lia |].
  destruct (fade_leaves_middle 300 DURATION SAMPLE_RATE FADE_DURATION [] _ _ Hrun)
    as (unfaded & s0 & Hrun0 & Hmid).
  eexists _, unfaded, _, s0. split; [exact Hrun |]. split; [exact Hrun0 |].
  apply Hmid; rewrite HN, ?HF; lia.
Defined.

(** X3.  Whenever the call returns with a fade of two points or more and
    disjoint windows (1 < F and 2 F <= N), the fade-in reaches full scale
    on its last point and the fade-out starts from full scale: the
    samples at indices [F - 1] and [N - F] equal those of the call
    without fade. *)
Theorem fade_windows_inner_ends (frequency duration : R) (sample_rate : Z)
    (fade_duration : R) (s s1 : store) (faded : list Z) :
  let N := sample_count duration sample_rate in
  let F := fade_count sample_rate fade_duration in
  generate_tone frequency duration sample_rate fade_duration s = Ok faded s1 →
  (1 < F)%Z → (2 * F ≤ N)%Z →
  ∃ (unfaded : list Z) (s0 : store),
    generate_tone frequency duration sample_rate 0 s = Ok unfaded s0 ∧
    is_Some (faded !! Z.to_nat (F - 1)) ∧
    faded !! Z.to_nat (F - 1) = unfaded !! Z.to_nat (F - 1) ∧
    is_Some (faded !! Z.to_nat (N - F)) ∧
    faded !! Z.to_nat (N - F) = unfaded !! Z.to_nat (N - F).
Proof.
  intros N F Hrun HF1 HFN.
  destruct (generate_tone_ok _ _ _ _ _ _ _ Hrun) as (HN & _ & Hlen & Hlook).
  fold N F in HN, Hlen, Hlook.
  destruct (generate_tone_unfaded frequency duration sample_rate s HN)
    as (unfaded & s0 & Hrun0 & Hlen0 & Hlook0).
  fold N in Hlen0, Hlook0.
  exists unfaded, s0. split; [exact Hrun0 |].
  rewrite !Hlook, !Hlook0 by lia.
  destruct (ramp_up_ends F HF1) as [_ Hup]. destruct (ramp_down_ends F HF1) as [Hdown _].
  split; [eexists; reflexivity |]. split; [| split; [eexists; reflexivity |]].
  - unfold faded_sample. rewrite fade_out_applied_outside by lia.
    unfold fade_in_applied.
    replace (Z.of_nat (Z.to_nat (F - 1)) <? F)%Z with true
      by (symmetry; apply Z.ltb_lt; lia).
    rewrite Hup, fmul_1_r by apply format_raw_sample. reflexivity.
  - unfold faded_sample. rewrite fade_in_applied_outside by lia.
    unfold fade_out_applied.
    replace (N - F <=? Z.of_nat (Z.to_nat (N - F)))%Z with true
      by (symmetry; apply Z.leb_le; lia).
    replace (Z.to_nat (N - F) - Z.to_nat (N - F))%nat with 0%nat by lia.
    rewrite Hdown, fmul_1_r by apply format_raw_sample. reflexivity.
Qed.

Lemma fade_windows_inner_ends_witness :
  ∃ (faded unfaded : list Z) (s1 s0 : store),
    generate_tone 300 DURATION SAMPLE_RATE FADE_DURATION [] = Ok faded s1 ∧
    generate_tone 300 DURATION SAMPLE_RATE 0 [] = Ok unfaded s0 ∧
    faded !! 440%nat = unfaded !! 440%nat ∧
    faded !! Z.to_nat 8379 = unfaded !! Z.to_nat 8379.
Proof.
  pose proof sample_count_main as HN. pose proof fade_count_main as HF.
  destruct (generate_tone_returns 300 DURATION SAMPLE_RATE FADE_DURATION [])
    as (a & Hrun & _); [rewrite HN; lia | rewrite HN, HF; lia |].
  destruct (fade_windows_inner_ends 300 DURATION SAMPLE_RATE FADE_DURATION [] _ _ Hrun)
    as (unfaded & s0 & Hrun0 & _ & Hin & _ & Hout);
    [rewrite HF; lia | rewrite HN, HF; lia |].
  rewrite HN, HF in Hout. rewrite HF in Hin.
  eexists _, unfaded, _, s0. split; [exact Hrun |]. split; [exact Hrun0 |].
  split; [exact Hin | exact Hout].
Defined.

(** X4.  Whenever the call returns at least one sample, the buffer begins
    with the sample 0; with a fade of two points or more it also ends with
    the sample 0 (overlapping fades included). *)
Theorem buffer_begins_and_ends_at_zero (frequency duration : R) (sample_rate : Z)
    (fade_duration : R) (s s' : store) (buf : list Z) :
  let N := sample_count duration sample_rate in
  let F := fade_count sample_rate fade_duration in
  generate_tone frequency duration sample_rate fade_duration s = Ok buf s' →
  (1 ≤ N)%Z →
  buf !! 0%nat = Some 0%Z ∧
  ((1 < F)%Z → buf !! Z.to_nat (N - 1) = Some 0%Z ∧ last buf = Some 0%Z).
Proof.
  intros N F Hrun HN1.
  destruct (generate_tone_ok _ _ _ _ _ _ _ Hrun) as (HN & HFN & Hlen & Hlook).
  fold N F in HN, HFN, Hlen, Hlook. split.
  - rewrite Hlook by lia. f_equal. unfold faded_sample.
    rewrite raw_sample_first, fade_in_applied_0, fade_out_applied_0, fmul_0_l.
    apply py_int_0.
  - intros HF1.
    assert (buf !! Z.to_nat (N - 1) = Some 0%Z) as Hlast.
    { rewrite Hlook by lia. f_equal. unfold faded_sample, fade_out_applied.
      replace (N - F <=? Z.of_nat (Z.to_nat (N - 1)))%Z with true
        by (symmetry; apply Z.leb_le; lia).
      replace (Z.to_nat (N - 1) - Z.to_nat (N - F))%nat with (Z.to_nat (F - 1)) by lia.
      destruct (ramp_down_ends F HF1) as [_ ->].
      rewrite fmul_0_r, fmul_0_l. apply py_int_0. }
    split; [exact Hlast |].
    rewrite last_lookup, Hlen. rewrite <- Hlast. f_equal. lia.
Qed.

Lemma buffer_begins_and_ends_at_zero_witness :
  ∃ (buf : list Z) (s' : store),
    generate_tone 300 DURATION SAMPLE_RATE FADE_DURATION [] = Ok buf s' ∧
    buf !! 0%nat = Some 0%Z ∧ last buf = Some 0%Z.
Proof.
  pose proof sample_count_main as HN. pose proof fade_count_main as HF.
  destruct (generate_tone_returns 300 DURATION SAMPLE_RATE FADE_DURATION [])
    as (a & Hrun & _); [rewrite HN; lia | rewrite HN, HF; lia |].
  destruct (buffer_begins_and_ends_at_zero 300 DURATION SAMPLE_RATE FADE_DURATION
              [] _ _ Hrun) as [Hfirst Hlast]; [rewrite HN; lia |].
  eexists _, _. split; [exact Hrun |]. split; [exact Hfirst |].
  apply Hlast. rewrite HF. lia.
Defined.

End FadeWindows.

(** ** Dependence on the frequency *)

Section Frequency.
Local Open Scope R_scope.

(** X5.  The frequency zero gives silence: whenever the call returns,
    every sample is 0. *)
Theorem zero_frequency_is_silent (duration : R) (sample_rate : Z)
    (fade_duration : R) (s s' : store) (buf : list Z) :
  generate_tone 0 duration sample_rate fade_duration s = Ok buf s' →
  buf = replicate (Z.to_nat (sample_count duration sample_rate)) 0%Z.
Proof.
  intros Hrun.
  destruct (generate_tone_ok _ _ _ _ _ _ _ Hrun) as (HN & _ & Hlen & Hlook).
  apply list_eq. intros i.
  destruct (decide (i < Z.to_nat (sample_count duration sample_rate))%nat) as [Hi | Hi].
  - rewrite Hlook by exact Hi. rewrite lookup_replicate_2 by exact Hi. f_equal.
    unfold faded_sample, raw_sample.
    rewrite fmul_0_r, fmul_0_l, fsin_0, fade_in_applied_0, fade_out_applied_0, fmul_0_l.
    apply py_int_0.
  - rewrite !lookup_ge_None_2; [reflexivity | rewrite length_replicate; lia | lia].
Qed.

Lemma zero_frequency_is_silent_witness :
  ∃ (buf : list Z) (s' : store),
    generate_tone 0 DURATION SAMPLE_RATE FADE_DURATION [] = Ok buf s' ∧
    buf = replicate (Z.to_nat 8820) 0%Z.
Proof.
  pose proof sample_count_main as HN. pose proof fade_count_main as HF.
  destruct (generate_tone_returns 0 DURATION SAMPLE_RATE FADE_DURATION [])
    as (a & Hrun & _); [rewrite HN; lia | rewrite HN, HF; lia |].
  eexists _, _. split; [exact Hrun |].
  rewrite <- HN.
  exact (zero_frequency_is_silent DURATION SAMPLE_RATE FADE_DURATION [] _ _ Hrun).
Defined.

Lemma raw_sample_opp (frequency duration : R) (N : Z) (i : nat) :
  raw_sample (- frequency) duration N i = - raw_sample frequency duration N i.
Proof. unfold raw_sample. rewrite fmul_opp_r, fmul_opp_l. apply fsin_opp. Qed.

Lemma faded_sample_opp (frequency duration : R) (N F : Z) (i : nat) :
  faded_sample (- frequency) duration N F i = - faded_sample frequency duration N F i.
Proof.
  unfold faded_sample. rewrite raw_sample_opp.
  set (x := raw_sample frequency duration N i).
  assert (fade_in_applied F i (- x) = - fade_in_applied F i x) as ->.
  { unfold fade_in_applied. destruct (_ <? _)%Z; [apply fmul_opp_l | reflexivity]. }
  unfold fade_out_applied. destruct (_ <=? _)%Z; [apply fmul_opp_l | reflexivity].
Qed.

(** X6.  Negating the frequency negates the tone: whenever the call
    returns, the call with [- frequency] returns the same buffer with
    every sample negated. *)
Theorem negated_frequency_negates (frequency duration : R) (sample_rate : Z)
    (fade_duration : R) (s s1 : store) (buf : list Z) :
  generate_tone frequency duration sample_rate fade_duration s = Ok buf s1 →
  ∃ s2 : store,
    generate_tone (- frequency) duration sample_rate fade_duration s
    = Ok (Z.opp <$> buf) s2.
Proof.
  intros Hrun.
  destruct (generate_tone_ok _ _ _ _ _ _ _ Hrun) as (HN & HFN & Hlen & Hlook).
  set (N := sample_count duration sample_rate) in *.
  set (F := fade_count sample_rate fade_duration) in *.
  assert (∃ (neg : list Z) (s2 : store),
            generate_tone (- frequency) duration sample_rate fade_duration s
            = Ok neg s2) as (neg & s2 & Hneg).
  { destruct HFN as [HFN | [HN0 HF1]].
    - destruct (generate_tone_returns (- frequency) duration sample_rate fade_duration s
                  HN HFN) as (a & Hr & _). eauto.
    - rewrite generate_tone_run, (final_audio_empty _ _ _ _ HN0 HF1). eauto. }
  exists s2. rewrite Hneg. f_equal.
  destruct (generate_tone_ok _ _ _ _ _ _ _ Hneg) as (_ & _ & Hlen' & Hlook').
  fold N F in Hlen', Hlook'.
  apply list_eq. intros i. rewrite list_lookup_fmap.
  destruct (decide (i < Z.to_nat N)%nat) as [Hi | Hi].
  - rewrite Hlook', Hlook by exact Hi. simpl. f_equal.
    rewrite faded_sample_opp, fmul_opp_l. apply py_int_opp.
  - rewrite !lookup_ge_None_2 by lia. reflexivity.
Qed.

Lemma negated_frequency_negates_witness :
  ∃ (buf : list Z) (s1 s2 : store),
    generate_tone 300 DURATION SAMPLE_RATE FADE_DURATION [] = Ok buf s1 ∧
    generate_tone (- 300) DURATION SAMPLE_RATE FADE_DURATION [] = Ok (Z.opp <$> buf) s2.
Proof.
  pose proof sample_count_main as HN. pose proof fade_count_main as HF.
  destruct (generate_tone_returns 300 DURATION SAMPLE_RATE FADE_DURATION [])
    as (a & Hrun & _); [rewrite HN; lia | rewrite HN, HF; lia |].
  destruct (negated_frequency_negates 300 DURATION SAMPLE_RATE FADE_DURATION [] _ _ Hrun)
    as (s2 & Hneg).
  eexists _, _, s2. split; [exact Hrun | exact Hneg].
Defined.

End Frequency.

(** ** Every buffer that is returned *)

Section AnyReturn.
Local Open Scope R_scope.

(** X7.  For any arguments whatsoever, valid or not: if the call returns
    a buffer, the buffer has [N] samples, every one of them in
    [-32767, 32767]; the 16-bit cast never wraps and -32768 never
    occurs. *)
Theorem returned_buffer_in_range (frequency duration : R) (sample_rate : Z)
    (fade_duration : R) (s s' : store) (buf : list Z) :
  generate_tone frequency duration sample_rate fade_duration s = Ok buf s' →
  length buf = Z.to_nat (sample_count duration sample_rate) ∧
  ∀ (i : nat) (z : Z), buf !! i = Some z → (-32767 ≤ z ≤ 32767)%Z.
Proof.
  intros Hrun.
  destruct (generate_tone_ok _ _ _ _ _ _ _ Hrun) as (HN & _ & Hlen & Hlook).
  split; [exact Hlen |].
  intros i z Hz.
  assert (i < Z.to_nat (sample_count duration sample_rate))%nat as Hi.
  { apply lookup_lt_Some in Hz. lia. }
  rewrite Hlook in Hz by exact Hi. inversion Hz; subst z.
  destruct (astype_int16_sample
              (faded_sample frequency duration (sample_count duration sample_rate)
                 (fade_count sample_rate fade_duration) i)) as (_ & Heq & Hrange).
  { apply faded_sample_bounded. lia. }
  rewrite <- Heq. exact Hrange.
Qed.

Lemma returned_buffer_in_range_witness :
  ∃ (buf : list Z) (s' : store),
    generate_tone 1 1 4 (3 / 4) [] = Ok buf s' ∧
    length buf = Z.to_nat (sample_count 1 4) ∧
    ∀ (i : nat) (z : Z), buf !! i = Some z → (-32767 ≤ z ≤ 32767)%Z.
Proof.
  assert (sample_count 1 4 = 4%Z) as HN.
  { apply (count_eval 4 1 4 4);
      [lia | exact (format_IZR 4 ltac:(lia)) | lra | apply py_int_IZR]. }
  assert (fade_count 4 (3 / 4) = 3%Z) as HF.
  { apply (count_eval 4 (3 / 4) 3 3);
      [lia | exact (format_IZR 3 ltac:(lia)) | lra | apply py_int_IZR]. }
  destruct (generate_tone_returns 1 1 4 (3 / 4) []) as (a & Hrun & _);
    [rewrite HN; lia | rewrite HN, HF; lia |].
  eexists _, _. split; [exact Hrun |].
  exact (returned_buffer_in_range 1 1 4 (3 / 4) [] _ _ Hrun).
Defined.

End AnyReturn.

(** ** The sample count and the exact product *)

Section Counts.
Local Open Scope R_scope.

(** X8.  The sample count is the floor of the rounded product.  Against
    the floor of the exact product [sample_rate * duration] it is never
    less and at most one more (for a rate and a product below 2^53). *)
Theorem sample_count_near_exact_floor (duration : R) (sample_rate : Z) :
  (0 ≤ sample_rate < 2 ^ 53)%Z → 0 <= duration →
  IZR sample_rate * duration < IZR (2 ^ 53 - 1) →
  (Zfloor (IZR sample_rate * duration) ≤ sample_count duration sample_rate
   ≤ Zfloor (IZR sample_rate * duration) + 1)%Z.
Proof.
  intros Hsr Hd Hbound. unfold sample_count.
  rewrite of_int_small by lia.
  assert (0 <= IZR sample_rate) as Hsr0 by (apply IZR_le; lia).
  set (x := IZR sample_rate * duration) in *.
  assert (0 <= x) as Hx by (unfold x; apply Rmult_le_pos; assumption).
  pose proof (Zfloor_bound x) as [Hlo Hhi].
  assert (0 ≤ Zfloor x)%Z as Hn0 by (apply (Zfloor_lub 0), Hx).
  assert (Zfloor x < 2 ^ 53 - 1)%Z as Hn1.
  { apply lt_IZR. lra. }
  unfold fmul. fold x.
  rewrite py_int_nonneg by (apply rnd64_pos, Hx). split.
  - apply Zfloor_lub. apply rnd64_ge_format; [apply format_IZR; lia | exact Hlo].
  - rewrite <- (ZfloorZ (Zfloor x + 1)). apply Zfloor_le.
    apply rnd64_le_format; [apply format_IZR; lia |].
    rewrite plus_IZR. lra.
Qed.

Lemma sample_count_near_exact_floor_witness :
  (0 ≤ 10 < 2 ^ 53)%Z ∧ 0 <= rnd64 (3 / 10) ∧
  IZR 10 * rnd64 (3 / 10) < IZR (2 ^ 53 - 1) ∧
  (Zfloor (IZR 10 * rnd64 (3 / 10)) ≤ sample_count (rnd64 (3 / 10)) 10
   ≤ Zfloor (IZR 10 * rnd64 (3 / 10)) + 1)%Z.
Proof.
  assert (0 ≤ 10 < 2 ^ 53)%Z as H1 by lia.
  assert (0 <= rnd64 (3 / 10)) as H2 by (apply rnd64_pos; lra).
  assert (IZR 10 * rnd64 (3 / 10) < IZR (2 ^ 53 - 1)) as H3.
  { assert (rnd64 (3 / 10) <= 1) by (apply rnd64_le_format; [apply format_1 | lra]).
    change (IZR (2 ^ 53 - 1)) with 9007199254740991. lra. }
  split; [exact H1 |]. split; [exact H2 |]. split; [exact H3 |].
  exact (sample_count_near_exact_floor (rnd64 (3 / 10)) 10 H1 H2 H3).
Defined.

(** X9.  The time axis never runs backwards: for a duration that is not
    negative, the time points start at 0 and do not decrease with the
    index; for a positive duration and at most 2^52 samples they increase
    strictly, rounding notwithstanding. *)
Theorem time_points_monotone (duration : R) (N : Z) (i j : nat) (x y : R) :
  0 <= duration → (i ≤ j)%nat →
  time_points duration N !! i = Some x →
  time_points duration N !! j = Some y →
  time_points duration N !! 0%nat = Some 0 ∧ 0 <= x ∧ x <= y ∧
  (0 < duration → (N ≤ 2 ^ 52)%Z → (i < j)%nat → x < y).
Proof.
  intros Hd Hij Hx Hy.
  apply lookup_lt_Some in Hy as Hj. rewrite length_time_points in Hj.
  rewrite lookup_time_points in Hx, Hy |- * by lia.
  inversion Hx; inversion Hy; subst x y.
  unfold time_point.
  assert (0 <= fdiv (fsub duration 0) (of_int N)) as Hr.
  { unfold fdiv, fsub. rewrite Rminus_0_r. apply rnd64_pos.
    pose proof (of_int_pos N ltac:(lia)). pose proof (rnd64_pos duration Hd).
    unfold Rdiv. apply Rmult_le_pos; [assumption |].
    apply Rlt_le, Rinv_0_lt_compat. lra. }
  set (r := fdiv (fsub duration 0) (of_int N)) in *.
  pose proof (of_int_nonneg (Z.of_nat i) ltac:(lia)) as Hi0.
  pose proof (of_int_mono (Z.of_nat i) (Z.of_nat j) ltac:(lia)) as Hle.
  split; [| split; [| split]].
  - change (Z.of_nat 0) with 0%Z. rewrite of_int_0, fmul_0_l. reflexivity.
  - apply fmul_nonneg; assumption.
  - unfold fmul. apply rnd64_mono. nra.
  - intros Hd0 HN Hlt. apply multiples_increase; [| lia | lia].
    subst r. unfold fdiv, fsub. rewrite Rminus_0_r. apply rnd64_pos_strict.
    pose proof (of_int_pos N ltac:(lia)). pose proof (rnd64_pos_strict duration Hd0).
    apply Rdiv_lt_0_compat; lra.
Qed.

Lemma time_points_monotone_witness :
  ∃ x y : R,
    time_points DURATION 8820 !! 100%nat = Some x ∧
    time_points DURATION 8820 !! 200%nat = Some y ∧
    0 <= x ∧ x < y.
Proof.
  assert (0 <= DURATION) as Hd by (rewrite DURATION_value; lra).
  assert (100 ≤ 200)%nat as Hij by lia.
  pose proof (lookup_time_points DURATION 8820 100 ltac:(lia)) as Hx.
  pose proof (lookup_time_points DURATION 8820 200 ltac:(lia)) as Hy.
  eexists _, _. split; [exact Hx |]. split; [exact Hy |].
  destruct (time_points_monotone DURATION 8820 100 200 _ _ Hd Hij Hx Hy)
    as (_ & H0 & _ & Hstrict).
  split; [exact H0 |]. apply Hstrict; [rewrite DURATION_value; lra | lia | lia].
Defined.

End Counts.

(** ** Slices and in-place products, in general *)

Section Views.
Local Open Scope R_scope.

(** X10.  A slice never reaches outside its array: for any bounds, given
    or omitted, negative or too large, and any array length, the view
    [a[start:stop]] lies within the array. *)
Theorem slice_within_array (start stop : option Z) (len : nat) :
  ((slice_bounds start stop len).1 + (slice_bounds start stop len).2 ≤ len)%nat.
Proof.
  unfold slice_bounds, adjust_index. cbn [fst snd].
  destruct start as [lo |], stop as [hi |]; cbv [default from_option Datatypes.id];
    repeat match goal with
           | |- context [(?a <? ?b)%Z] => destruct (Z.ltb_spec a b)
           end; lia.
Qed.

Lemma lookup_imul_values_outside (x b x' : ndarray) (off ext i : nat) :
  imul_values x off ext b = Some x' →
  ¬ (off ≤ i < off + ext)%nat → x' !! i = x !! i.
Proof.
  intros H Hout. pose proof (length_imul_values _ _ _ _ _ H) as Hlen.
  destruct (decide (i < length x)%nat) as [Hi | Hi].
  2:{ rewrite !lookup_ge_None_2 by lia. reflexivity. }
  assert (∃ seg : ndarray,
            length seg = length (take ext (drop off x)) ∧
            x' = take off x ++ seg ++ drop (off + ext) x) as (seg & Hseg & ->).
  { unfold imul_values in H. destruct (decide (length b = ext)) as [Hb | Hb].
    - inversion H. eexists. split; [| reflexivity].
      rewrite length_zip_with, length_take, length_drop. lia.
    - destruct b as [| c [| ? ?]]; inversion H.
      eexists. split; [| reflexivity]. apply length_fmap. }
  rewrite length_take, length_drop in Hseg.
  destruct (decide (i < off)%nat) as [Hlo | Hlo].
  - rewrite lookup_app_l by (rewrite length_take; lia).
    apply lookup_take_lt, Hlo.
  - rewrite lookup_app_r by (rewrite length_take; lia).
    rewrite length_take, lookup_app_r by lia.
    rewrite lookup_drop. f_equal. lia.
Qed.

(** X11.  [view *= rhs] is a write through the view and nothing else: if
    it succeeds, the store has the same arrays, every array other than the
    view's base is unchanged, and the base keeps its length and all its
    elements outside the view. *)
Theorem imul_writes_only_the_view (v : view) (rhs : ref) (s s' : store) :
  imul v rhs s = Ok tt s' →
  length s' = length s ∧
  (∀ r : ref, r ≠ base v → s' !! r = s !! r) ∧
  ∃ x x' : ndarray,
    s !! base v = Some x ∧ s' !! base v = Some x' ∧
    length x' = length x ∧
    ∀ i : nat, ¬ (offset v ≤ i < offset v + extent v)%nat → x' !! i = x !! i.
Proof.
  intros Hrun. unfold imul in Hrun. rewrite bind_run in Hrun. unfold load in Hrun at 1.
  destruct (s !! base v) as [x |] eqn:Hx; [| discriminate].
  rewrite bind_run in Hrun. unfold load in Hrun.
  destruct (s !! rhs) as [b |] eqn:Hb; [| discriminate].
  destruct (imul_values x (offset v) (extent v) b) as [x' |] eqn:Hval; [| discriminate].
  rewrite (store_at_run _ x) in Hrun by exact Hx. inversion Hrun; subst s'.
  split; [apply length_insert |]. split.
  - intros r Hr. apply list_lookup_insert_ne. congruence.
  - exists x, x'. split; [reflexivity |]. split.
    + apply list_lookup_insert_eq. apply lookup_lt_Some in Hx. exact Hx.
    + split; [apply (length_imul_values _ _ _ _ _ Hval) |].
      intros i Hi. apply (lookup_imul_values_outside _ _ _ _ _ _ Hval Hi).
Qed.

Lemma imul_writes_only_the_view_witness :
  ∃ s' : store,
    imul (View 0 1 2) 1 [[1; 2; 3; 4]; [10; 100]] = Ok tt s' ∧
    length s' = 2%nat ∧
    s' !! 1%nat = Some [10; 100].
Proof.
  assert (imul (View 0 1 2) 1 [[1; 2; 3; 4]; [10; 100]]
          = Ok tt [[1; fmul 2 10; fmul 3 100; 4]; [10; 100]]) as Hrun by reflexivity.
  eexists. split; [exact Hrun |].
  destruct (imul_writes_only_the_view _ _ _ _ Hrun) as (Hlen & Hother & _).
  split; [exact Hlen |].
  rewrite (Hother 1%nat) by (simpl; lia). reflexivity.
Defined.

End Views.

(** ** [np.linspace] without rounding *)

Section LinspaceOrder.
Import Exact.
Local Open Scope R_scope.










End LinspaceOrder.

(** ** The shape of the two ramps *)

Section RampShape.
Local Open Scope R_scope.

Lemma ramp_up_monotone (F : Z) (j k : nat) :
  (1 < F)%Z → (j ≤ k)%nat → (Z.of_nat k < F)%Z → ramp_up F j <= ramp_up F k.
Proof.
  intros HF Hjk Hk.
  pose proof (ramp_up_bounds F j ltac:(lia)) as [_ Hj1].
  unfold ramp_up in *.
  replace (F =? 1)%Z with false in * by (symmetry; apply Z.eqb_neq; lia).
  destruct (Z.of_nat k =? F - 1)%Z eqn:Hklast; [exact Hj1 |].
  apply Z.eqb_neq in Hklast.
  replace (Z.of_nat j =? F - 1)%Z with false by (symmetry; apply Z.eqb_neq; lia).
  pose proof (fdiv_1_pos (of_int (F - 1))
                ltac:(pose proof (of_int_pos (F - 1) ltac:(lia)); lra)) as Hr.
  pose proof (of_int_mono (Z.of_nat j) (Z.of_nat k) ltac:(lia)) as Hle.
  unfold fmul. apply rnd64_mono. nra.
Qed.

Lemma ramp_down_antitone (F : Z) (j k : nat) :
  (1 < F)%Z → (j ≤ k)%nat → (Z.of_nat k < F)%Z → ramp_down F k <= ramp_down F j.
Proof.
  intros HF Hjk Hk.
  pose proof (ramp_down_bounds F j ltac:(lia)) as [Hj0 _].
  unfold ramp_down in *.
  replace (F =? 1)%Z with false in * by (symmetry; apply Z.eqb_neq; lia).
  destruct (Z.of_nat k =? F - 1)%Z eqn:Hklast; [exact Hj0 |].
  apply Z.eqb_neq in Hklast.
  replace (Z.of_nat j =? F - 1)%Z with false by (symmetry; apply Z.eqb_neq; lia).
  pose proof (fdiv_1_pos (of_int (F - 1))
                ltac:(pose proof (of_int_pos (F - 1) ltac:(lia)); lra)) as Hr.
  pose proof (of_int_mono (Z.of_nat j) (Z.of_nat k) ltac:(lia)) as Hle.
  rewrite fdiv_m1, !fmul_opp_r. unfold fadd. apply rnd64_mono.
  assert (fmul (of_int (Z.of_nat j)) (fdiv 1 (of_int (F - 1)))
          <= fmul (of_int (Z.of_nat k)) (fdiv 1 (of_int (F - 1)))); [| lra].
  unfold fmul. apply rnd64_mono. nra.
Qed.

(** X13.  For a fade of two points or more the rising ramp starts at 0,
    never decreases and ends at 1; the falling ramp starts at 1, never
    increases and ends at 0: the envelope has no bump inside a fade
    window.  For ramps of at most 2^50 points the order is strict: the
    rounding never makes two points of a ramp equal. *)
Theorem fade_ramps_ordered (F : Z) (j k : nat) :
  (1 < F)%Z → (j ≤ k)%nat → (Z.of_nat k < F)%Z →
  fade_in_values F !! 0%nat = Some 0 ∧
  fade_in_values F !! Z.to_nat (F - 1) = Some 1 ∧
  fade_out_values F !! 0%nat = Some 1 ∧
  fade_out_values F !! Z.to_nat (F - 1) = Some 0 ∧
  ∃ u u' w w' : R,
    fade_in_values F !! j = Some u ∧ fade_in_values F !! k = Some u' ∧
    fade_out_values F !! j = Some w ∧ fade_out_values F !! k = Some w' ∧
    0 <= u ∧ u <= u' ∧ u' <= 1 ∧
    0 <= w' ∧ w' <= w ∧ w <= 1 ∧
    ((F ≤ 2 ^ 50)%Z → (j < k)%nat → u < u' ∧ w' < w).
Proof.
  intros HF Hjk Hk.
  destruct (ramp_up_ends F HF) as [Hu0 Hu1].
  destruct (ramp_down_ends F HF) as [Hd0 Hd1].
  rewrite !lookup_fade_in_values, !lookup_fade_out_values by lia.
  rewrite Hu0, Hu1, Hd0, Hd1. repeat (split; [reflexivity |]).
  exists (ramp_up F j), (ramp_up F k), (ramp_down F j), (ramp_down F k).
  repeat (split; [reflexivity |]).
  pose proof (ramp_up_bounds F j ltac:(lia)). pose proof (ramp_up_bounds F k Hk).
  pose proof (ramp_down_bounds F j ltac:(lia)). pose proof (ramp_down_bounds F k Hk).
  pose proof (ramp_up_monotone F j k HF Hjk Hk).
  pose proof (ramp_down_antitone F j k HF Hjk Hk).
  repeat (split; [lra |]).
  intros HF50 Hlt. split.
  - apply ramp_up_increases; [lia | exact Hlt | exact Hk].
  - apply ramp_down_decreases; [lia | exact Hlt | exact Hk].
Qed.

Lemma fade_ramps_ordered_witness :
  (1 < 441)%Z ∧ (10 ≤ 20)%nat ∧ (Z.of_nat 20 < 441)%Z ∧
  fade_in_values 441 !! 0%nat = Some 0 ∧
  fade_in_values 441 !! Z.to_nat (441 - 1) = Some 1 ∧
  fade_out_values 441 !! 0%nat = Some 1 ∧
  fade_out_values 441 !! Z.to_nat (441 - 1) = Some 0 ∧
  ∃ u u' w w' : R,
    fade_in_values 441 !! 10%nat = Some u ∧ fade_in_values 441 !! 20%nat = Some u' ∧
    fade_out_values 441 !! 10%nat = Some w ∧ fade_out_values 441 !! 20%nat = Some w' ∧
    0 <= u ∧ u <= u' ∧ u' <= 1 ∧
    0 <= w' ∧ w' <= w ∧ w <= 1 ∧
    ((441 ≤ 2 ^ 50)%Z → (10 < 20)%nat → u < u' ∧ w' < w).
Proof.
  assert (1 < 441)%Z as H1 by lia.
  assert (10 ≤ 20)%nat as H2 by lia.
  assert (Z.of_nat 20 < 441)%Z as H3 by lia.
  split; [exact H1 |]. split; [exact H2 |]. split; [exact H3 |].
  exact (fade_ramps_ordered 441 10 20 H1 H2 H3).
Defined.

End RampShape.

(** ** Arguments at the edge *)

Section Edges.
Local Open Scope R_scope.





End Edges.
